(** * Connect-4 search engine (betterai_player.py): shallow embedding

    The board is a 6x7 integer grid (0 = empty, 1 = human, -1 = AI), row 0
    being the top row.  The engine is an iterative-deepening negamax with
    alpha-beta pruning and a transposition table keyed by a Zobrist-like
    hash.  The search mutates one shared board in place, so the model
    threads an explicit state through every call. *)

From Stdlib Require Import ZArith Lia Bool.
From stdpp Require Import base option list gmap.

Local Open Scope Z_scope.

(** ** Board *)

Definition ROWS : nat := 6.
Definition COLS : nat := 7.
Definition CENTER_COL : nat := Nat.div COLS 2.
Definition MOVE_ORDER : list nat := [3; 4; 2; 5; 1; 6; 0]%nat.

Abbreviation Board := (list (list Z)).

(** A 6x7 array, the only shape [best_move] is meant to receive. *)
Definition wf_board (b : Board) : Prop :=
  length <$> b = replicate ROWS COLS.

(** [board[r, c]] for in-range indices. *)
Definition cell (b : Board) (r c : nat) : Z :=
  match b !! r with
  | Some row => default 0 (row !! c)
  | None => 0
  end.

(** [board[r, c] = v]. *)
Definition set_cell (b : Board) (r c : nat) (v : Z) : Board :=
  alter (λ row, <[c := v]> row) r b.

(** ** WINDOWS: every length-4 line, in the order the module builds them *)

Definition WINDOWS : list (list (nat * nat)) :=
  (r ← seq 0 ROWS; c ← seq 0 (COLS - 3);
     [ (λ i, (r, c + i)%nat) <$> seq 0 4 ]) ++
  (r ← seq 0 (ROWS - 3); c ← seq 0 COLS;
     [ (λ i, (r + i, c)%nat) <$> seq 0 4 ]) ++
  (r ← seq 0 (ROWS - 3); c ← seq 0 (COLS - 3);
     [ (λ i, (r + i, c + i)%nat) <$> seq 0 4 ]) ++
  (r ← seq 3 (ROWS - 3); c ← seq 0 (COLS - 3);
     [ (λ i, (r - i, c + i)%nat) <$> seq 0 4 ]).

(** ** Helpers: moves *)

Definition _valid_moves (b : Board) : list nat :=
  filter (λ c, cell b 0 c = 0) (seq 0 COLS).

Definition _ordered_moves (b : Board) : list nat :=
  filter (λ c, cell b 0 c = 0) MOVE_ORDER.

(** Scans rows 5, 4, ..., 0 of the column and returns the first empty one. *)
Definition _next_open_row (b : Board) (col : nat) : option nat :=
  find (λ r, bool_decide (cell b r col = 0)) (reverse (seq 0 ROWS)).

(** ** Win check around the last played cell *)

Definition in_board (rr cc : Z) : bool :=
  (0 <=? rr) && (rr <? Z.of_nat ROWS) && (0 <=? cc) && (cc <? Z.of_nat COLS).

(** The [while] loop of [count_dir]; it leaves the board after at most
    seven steps, see [count_dir_fuel]. *)
Fixpoint count_dir_loop (fuel : nat) (b : Board) (player : Z)
    (dr dc rr cc : Z) : Z :=
  match fuel with
  | O => 0
  | S fuel' =>
      if in_board rr cc && (cell b (Z.to_nat rr) (Z.to_nat cc) =? player)
      then 1 + count_dir_loop fuel' b player dr dc (rr + dr) (cc + dc)
      else 0
  end.

Definition count_dir (b : Board) (player : Z) (r c : nat) (dr dc : Z) : Z :=
  count_dir_loop 7 b player dr dc (Z.of_nat r) (Z.of_nat c).

Definition AXES : list (Z * Z) := [(0, 1); (1, 0); (1, 1); (-1, 1)].

Definition _is_win (b : Board) (player : Z) (r c : nat) : bool :=
  existsb (λ '(dr, dc),
    4 <=? count_dir b player r c dr dc + count_dir b player r c (- dr) (- dc) - 1)
    AXES.

(** ** Heuristic *)

Definition count_eq (v : Z) (vals : list Z) : Z :=
  Z.of_nat (length (filter (λ x, x = v) vals)).

(** One iteration of the [for window in WINDOWS] loop. *)
Definition window_step (b : Board) (score : Z) (window : list (nat * nat)) : Z :=
  let vals := (λ '(r, c), cell b r c) <$> window in
  let ai := count_eq (-1) vals in
  let hu := count_eq 1 vals in
  let empty := count_eq 0 vals in
  if (0 <? ai) && (hu =? 0) then
    if (ai =? 3) && (empty =? 1) then score + 1000
    else if (ai =? 2) && (empty =? 2) then score + 30
    else if (ai =? 1) && (empty =? 3) then score + 5
    else score
  else if (0 <? hu) && (ai =? 0) then
    if (hu =? 3) && (empty =? 1) then score - 1200
    else if (hu =? 2) && (empty =? 2) then score - 35
    else if (hu =? 1) && (empty =? 3) then score - 5
    else score
  else score.

Definition center_array (b : Board) : list Z :=
  (λ row, default 0 (row !! CENTER_COL)) <$> b.

Definition _evaluate (b : Board) : Z :=
  fold_left (window_step b) WINDOWS
    (0 + 6 * (count_eq (-1) (center_array b) - count_eq 1 (center_array b))).

(** ** Scores: Python mixes integers with [math.inf] and [-math.inf] *)

Inductive Score : Type :=
  | NegInf
  | Fin (z : Z)
  | PosInf.

Definition sneg (s : Score) : Score :=
  match s with
  | NegInf => PosInf
  | Fin z => Fin (- z)
  | PosInf => NegInf
  end.

Definition sle (a b : Score) : bool :=
  match a, b with
  | NegInf, _ => true
  | _, PosInf => true
  | Fin x, Fin y => x <=? y
  | _, _ => false
  end.

Definition slt (a b : Score) : bool := negb (sle b a).

Definition smax (a b : Score) : Score := if slt a b then b else a.
Definition smin (a b : Score) : Score := if slt b a then b else a.

Definition WIN_SCORE : Z := 10000000.

(** ** Transposition table *)

Record TTEntry : Type := mkTTEntry {
  e_depth : nat;
  e_score : Score;
  e_flag : Z;              (* 0 = exact, -1 = lower bound, +1 = upper bound *)
  e_best_move : option nat
}.

(** Outcome of the table lookup at the head of [_negamax]: an early
    return, or the (possibly narrowed) window to go on with. *)
Inductive Probe : Type :=
  | Hit (s : Score)
  | Miss (alpha beta : Score).

Definition tt_probe (t : gmap Z TTEntry) (key : Z) (depth : nat)
    (alpha beta : Score) : Probe :=
  match t !! key with
  | Some entry =>
      if (depth <=? e_depth entry)%nat then
        if e_flag entry =? 0 then Hit (e_score entry)
        else
          let alpha' := if e_flag entry <? 0 then smax alpha (e_score entry) else alpha in
          let beta' := if e_flag entry <? 0 then beta else smin beta (e_score entry) in
          if sle beta' alpha' then Hit (e_score entry) else Miss alpha' beta'
      else Miss alpha beta
  | None => Miss alpha beta
  end.

Definition _order_with_tt_first (t : gmap Z TTEntry) (valid : list nat)
    (key : Z) : list nat :=
  let bm :=
    match t !! key with
    | Some entry =>
        match e_best_move entry with
        | Some m => if bool_decide (m ∈ valid) then Some m else None
        | None => None
        end
    | None => None
    end in
  match bm with
  | Some m => m :: filter (λ c, c ≠ m ∧ c ∈ valid) MOVE_ORDER
  | None => filter (λ c, c ∈ valid) MOVE_ORDER
  end.

(** The three-way flag choice at the end of [_negamax]; [alpha] is the
    local variable as it stands after the move loop. *)
Definition store_flag (value alpha beta : Score) : Z :=
  if sle value alpha then 1
  else if sle beta value then -1
  else 0.

(** ** Search state: the shared board and the mutable fields of [self] *)

Record State : Type := mkState {
  board : Board;
  tt : gmap Z TTEntry;
  start_time : Z;
  stop : bool;
  now : nat                (* number of clock readings taken so far *)
}.

Definition with_board (st : State) (b : Board) : State :=
  mkState b (tt st) (start_time st) (stop st) (now st).
Definition with_tt (st : State) (t : gmap Z TTEntry) : State :=
  mkState (board st) t (start_time st) (stop st) (now st).
Definition set_stop (st : State) : State :=
  mkState (board st) (tt st) (start_time st) true (now st).
Definition tick (st : State) : State :=
  mkState (board st) (tt st) (start_time st) (stop st) (S (now st)).

(** ** The engine

    [zobrist r c i] is the table [self._zobrist] (drawn by numpy from a
    fixed seed; its entries are not in the source).  [clock k] is the k-th
    reading of [time.time()] after [best_move] is entered, in ticks, and
    [time_limit], [max_depth] are the fields of the player object. *)

Section Engine.

Variable zobrist : nat → nat → nat → Z.
Variable clock : nat → Z.
Variable time_limit : Z.
Variable max_depth : Z.

Definition _hash (b : Board) : Z :=
  fold_left (λ h r,
    fold_left (λ h c,
      let v := cell b r c in
      if v =? 1 then Z.lxor h (zobrist r c 0)
      else if v =? -1 then Z.lxor h (zobrist r c 1)
      else h) (seq 0 COLS) h) (seq 0 ROWS) 0.

Definition _time_up (st : State) : bool * State :=
  (time_limit <=? clock (now st) - start_time st, tick st).

(** Lines shared by the two move loops: make the move on the board, score
    it (an immediate win, or the negated value of the recursive call
    [child] at [depth - 1]), and undo it. *)
Definition try_move (child : Z → Score → Score → State → Score * State)
    (player : Z) (alpha beta : Score) (r col : nat) (st : State)
    : Score * State :=
  let st1 := with_board st (set_cell (board st) r col player) in
  let '(score, st2) :=
    if _is_win (board st1) player r col then (Fin WIN_SCORE, st1)
    else
      let '(v, s) := child (- player) (sneg beta) (sneg alpha) st1 in
      (sneg v, s) in
  (score, with_board st2 (set_cell (board st2) r col 0)).

(** The [for col in ...] loop of [_negamax]. *)
Fixpoint search_loop (child : Z → Score → Score → State → Score * State)
    (player : Z) (beta : Score) (cols : list nat)
    (value : Score) (best : option nat) (alpha : Score) (st : State)
    : Score * option nat * Score * State :=
  match cols with
  | [] => (value, best, alpha, st)
  | col :: cols' =>
      match _next_open_row (board st) col with
      | None => search_loop child player beta cols' value best alpha st
      | Some r =>
          let '(score, st3) := try_move child player alpha beta r col st in
          let value' := if slt value score then score else value in
          let best' := if slt value score then Some col else best in
          let alpha' := smax alpha score in
          if sle beta alpha' then (value', best', alpha', st3)
          else search_loop child player beta cols' value' best' alpha' st3
      end
  end.

Fixpoint _negamax (depth : nat) (player : Z) (alpha beta : Score)
    (st : State) : Score * State :=
  let '(up, st) := _time_up st in
  if up then (Fin 0, set_stop st)
  else
    let key := _hash (board st) in
    match tt_probe (tt st) key depth alpha beta with
    | Hit s => (s, st)
    | Miss alpha beta =>
        let valid := _valid_moves (board st) in
        match valid with
        | [] => (Fin 0, st)
        | _ :: _ =>
            match depth with
            | O =>
                (Fin (_evaluate (board st) * (if player =? -1 then 1 else -1)), st)
            | S d =>
                let '(value, best, alpha', st') :=
                  search_loop (_negamax d) player beta
                    (_order_with_tt_first (tt st) valid key)
                    NegInf None alpha st in
                let entry :=
                  mkTTEntry depth value (store_flag value alpha' beta) best in
                (value, with_tt st' (<[key := entry]> (tt st')))
            end
        end
    end.

(** The loop of [_negamax_root]: as [search_loop], with the clock checked
    before every move. *)
Fixpoint root_loop (child : Z → Score → Score → State → Score * State)
    (player : Z) (beta : Score) (cols : list nat)
    (best_score : Score) (best : option nat) (alpha : Score) (st : State)
    : Score * option nat * State :=
  match cols with
  | [] => (best_score, best, st)
  | col :: cols' =>
      let '(up, st) := _time_up st in
      if up then (best_score, best, set_stop st)
      else
        match _next_open_row (board st) col with
        | None => root_loop child player beta cols' best_score best alpha st
        | Some r =>
            let '(score, st3) := try_move child player alpha beta r col st in
            let best_score' := if slt best_score score then score else best_score in
            let best' := if slt best_score score then Some col else best in
            let alpha' := smax alpha score in
            if sle beta alpha' then (best_score', best', st3)
            else root_loop child player beta cols' best_score' best' alpha' st3
        end
  end.

(** [depth] is at least 1 here: [best_move] iterates over
    [range(1, max_depth + 1)], so [depth - 1] is a natural number. *)
Definition _negamax_root (depth : nat) (player : Z) (alpha beta : Score)
    (st : State) : Score * option nat * State :=
  root_loop (_negamax (depth - 1)) player beta (_ordered_moves (board st))
    NegInf None alpha st.

(** The iterative-deepening loop of [best_move]. *)
Fixpoint deepen (depths : list nat) (player : Z) (best_col : nat)
    (st : State) : nat * State :=
  match depths with
  | [] => (best_col, st)
  | depth :: depths' =>
      let '(up, st) := _time_up st in
      if up then (best_col, st)
      else
        let '(score, move, st) := _negamax_root depth player NegInf PosInf st in
        if stop st then (best_col, st)
        else deepen depths' player (default best_col move) st
  end.

(** State on entry: [start_time] takes reading 0 of the clock, the stop
    flag is lowered and the table is cleared. *)
Definition init_state (b : Board) : State :=
  mkState b ∅ (clock 0) false 1.

Definition best_move_run (b : Board) (player : Z) : nat * State :=
  match _valid_moves b with
  | [] => (3%nat, init_state b)
  | c0 :: _ => deepen (seq 1 (Z.to_nat max_depth)) player c0 (init_state b)
  end.

Definition best_move (b : Board) (player : Z) : nat :=
  fst (best_move_run b player).

End Engine.

(** ** Reference definitions the properties are stated against *)

(** Plain fixed-depth minimax in negamax form: no window, no table, no
    clock.  A position without a legal column is a draw (0), a move that
    completes four in a row is worth [WIN_SCORE], and a depth-0 position
    gets the leaf value of [_negamax]. *)
Fixpoint minimax (depth : nat) (b : Board) (player : Z) : Score :=
  match _valid_moves b with
  | [] => Fin 0
  | valid =>
      match depth with
      | O => Fin (_evaluate b * (if player =? -1 then 1 else -1))
      | S d =>
          foldr smax NegInf
            ((λ col,
               match _next_open_row b col with
               | None => NegInf
               | Some r =>
                   let b' := set_cell b r col player in
                   if _is_win b' player r col then Fin WIN_SCORE
                   else sneg (minimax d b' (- player))
               end) <$> valid)
      end
  end.

(** The value of one move at the root of a search of depth [S d]. *)
Definition move_score (d : nat) (b : Board) (player : Z) (col : nat) : Score :=
  match _next_open_row b col with
  | None => NegInf
  | Some r =>
      let b' := set_cell b r col player in
      if _is_win b' player r col then Fin WIN_SCORE
      else sneg (minimax d b' (- player))
  end.

(** A table of 64-bit constants to run the engine with. *)
Definition sample_zobrist (r c i : nat) : Z :=
  (Z.of_nat (2 * (7 * r + c) + i + 1) * 11400714819323198485) mod 2 ^ 64.

(** ** The heuristic as the specification words it

    Self is the player -1, Opponent the player 1.  A window holding
    pieces of one side only is worth 1000 / 30 / 5 to Self for three, two
    or one pieces with the other cells empty, and -1200 / -[w2] / -5 when
    the pieces are the Opponent's; any other window is worth 0.  [w2] is
    the weight of the Opponent's two-with-two-empty pattern. *)

Definition window_value (w2 : Z) (self opp empty : Z) : Z :=
  if opp =? 0 then
    if (self =? 3) && (empty =? 1) then 1000
    else if (self =? 2) && (empty =? 2) then 30
    else if (self =? 1) && (empty =? 3) then 5
    else 0
  else if self =? 0 then
    if (opp =? 3) && (empty =? 1) then -1200
    else if (opp =? 2) && (empty =? 2) then - w2
    else if (opp =? 1) && (empty =? 3) then -5
    else 0
  else 0.

Definition window_cells (b : Board) (w : list (nat * nat)) : list Z :=
  (λ '(r, c), cell b r c) <$> w.

Definition centre_column (b : Board) : list Z :=
  (λ r, cell b r CENTER_COL) <$> seq 0 ROWS.

Definition heuristic (w2 : Z) (b : Board) : Z :=
  6 * (count_eq (-1) (centre_column b) - count_eq 1 (centre_column b))
  + foldr (λ w acc,
      window_value w2 (count_eq (-1) (window_cells b w))
        (count_eq 1 (window_cells b w)) (count_eq 0 (window_cells b w)) + acc)
      0 WINDOWS.

(** The same formula read from the side [self]: Self's pieces are the
    cells equal to [self], the Opponent's the cells equal to [- self]. *)
Definition heuristic_of (self : Z) (b : Board) : Z :=
  6 * (count_eq self (centre_column b) - count_eq (- self) (centre_column b))
  + foldr (λ w acc,
      window_value 35 (count_eq self (window_cells b w))
        (count_eq (- self) (window_cells b w)) (count_eq 0 (window_cells b w))
      + acc)
      0 WINDOWS.

(** ** Lines through a cell

    [owned] is the condition of the [while] loop in [count_dir].  [line]
    lists the four cells starting at (sr, sc) in direction (dr, dc), the
    shape of every entry of [WINDOWS]. *)

Definition owned (b : Board) (player rr cc : Z) : bool :=
  in_board rr cc && (cell b (Z.to_nat rr) (Z.to_nat cc) =? player).

Definition line (sr sc dr dc : Z) : list (nat * nat) :=
  (λ i, (Z.to_nat (sr + i * dr), Z.to_nat (sc + i * dc))) <$> [0; 1; 2; 3].

Definition line_in_board (sr sc dr dc : Z) : bool :=
  forallb (λ i, in_board (sr + i * dr) (sc + i * dc)) [0; 1; 2; 3].

(** A full-board scan restricted to the windows through (r, c). *)
Definition window_through (b : Board) (player : Z) (r c : nat) : Prop :=
  ∃ w, w ∈ WINDOWS ∧ (r, c) ∈ w ∧ ∀ r' c', (r', c') ∈ w → cell b r' c' = player.

(** ** Legal columns *)

(** A column is legal when it is on the board and its top cell is empty. *)
Definition legal (b : Board) (c : nat) : Prop := (c < COLS)%nat ∧ cell b 0 c = 0.

Global Instance legal_dec b c : Decision (legal b c).
Proof. unfold legal. apply _. Defined.

(** The legal columns in the centre-outward order 3, 4, 2, 5, 1, 6, 0. *)
Definition centre_out_legal (b : Board) : list nat := filter (legal b) MOVE_ORDER.


(** A state in which the budget never runs out, nothing is stored in the
    table and the stop flag is down: what a depth-1 pass starts from. *)
Definition quiet (clock : nat → Z) (time_limit : Z) (st : State) : Prop :=
  (∀ k, (time_limit <=? clock k - start_time st) = false) ∧
  tt st = ∅ ∧ stop st = false.

(** ** Sample positions *)

Definition empty_board : Board := replicate ROWS (replicate COLS 0).

(** A drawn game: every column is full and nobody has four in a row. *)
Definition full_board : Board :=
  [ [-1;  1; -1; -1;  1;  1; -1];
    [ 1; -1;  1;  1; -1;  1;  1];
    [-1;  1; -1; -1; -1;  1; -1];
    [ 1; -1;  1;  1;  1; -1;  1];
    [ 1; -1; -1; -1;  1; -1; -1];
    [ 1; -1; -1;  1;  1;  1; -1] ].

(** Thirty-six moves played, only the centre column is still open. *)
Definition centre_open_board : Board :=
  [ [ 1; -1; -1; 0; -1;  1;  1];
    [ 1;  1;  1; 0; -1;  1; -1];
    [-1; -1;  1; 0;  1; -1; -1];
    [ 1; -1; -1; 0; -1;  1; -1];
    [-1;  1; -1; 0; -1;  1;  1];
    [ 1;  1;  1; 0;  1; -1; -1] ].

(** Thirty-three moves played, -1 to move; columns 0, 1 and 3 are open. *)
Definition transposition_board : Board :=
  [ [ 0;  0; -1;  0; -1;  1;  1];
    [ 0;  0;  1;  0;  1; -1;  1];
    [ 1;  0;  1;  0; -1; -1;  1];
    [-1;  1; -1;  0; -1;  1; -1];
    [ 1; -1;  1;  1; -1; -1;  1];
    [ 1; -1; -1; -1;  1; -1;  1] ].

(** -1 to move.  Column 4 completes the bottom row at once; column 3
    instead makes a second threat on the row above. *)
Definition double_threat_board : Board :=
  [ [0;  0;  0;  0; 0; 0; 0];
    [0;  0;  0;  0; 0; 0; 0];
    [0;  0;  0;  0; 0; 0; 0];
    [0;  1;  0;  0; 0; 0; 0];
    [0; -1; -1;  0; 0; 1; 1];
    [1; -1; -1; -1; 0; 1; 1] ].

(** Two opening moves of player 1 side by side on the bottom row. *)
Definition pair_board : Board :=
  [ [0; 0; 0; 0; 0; 0; 0];
    [0; 0; 0; 0; 0; 0; 0];
    [0; 0; 0; 0; 0; 0; 0];
    [0; 0; 0; 0; 0; 0; 0];
    [0; 0; 0; 0; 0; 0; 0];
    [1; 1; 0; 0; 0; 0; 0] ].

(** A clock that stands still: with a positive limit the budget never
    runs out, with limit 0 it is spent from the start. *)
Definition frozen_clock : nat → Z := λ _, 0.


(** ** Public entry points

    [act] and [play] take the caller's board, a flat sequence of 42
    integers or a nested one, turn it into the 6x7 array and ask
    [best_move] for the move of the player -1.  [None] stands for the
    exception numpy or [play] raises: on rows of different lengths, on an
    entry that does not fit numpy's integer type, on an input of the wrong
    size. *)

Inductive BoardInput : Type :=
  | Flat (l : list Z)
  | Grid (g : list (list Z)).

(** The entries of the input in row-major order, the way numpy lays an
    array out; a nested input with rows of different lengths has no array
    form. *)
Definition entries_of (input : BoardInput) : option (list Z) :=
  match input with
  | Flat l => Some l
  | Grid [] => Some []
  | Grid (row :: rows) =>
      if forallb (λ r, length r =? length row)%nat rows
      then Some (concat (row :: rows))
      else None
  end.

(** [dtype=int] is numpy's signed 64-bit integer. *)
Definition int64 (z : Z) : bool := (- 2 ^ 63 <=? z) && (z <? 2 ^ 63).

(** [np.array(input, dtype=int)]: the entries of the input, provided every
    one of them fits the integer type (numpy raises [OverflowError]
    otherwise). *)
Definition array_data (input : BoardInput) : option (list Z) :=
  data ← entries_of input;
  if forallb int64 data then Some data else None.

(** [b.shape == (6, 7)]. *)
Definition shape_6x7 (input : BoardInput) : bool :=
  match input with
  | Flat _ => false
  | Grid g => (length g =? ROWS)%nat && forallb (λ r, length r =? COLS)%nat g
  end.

(** The first [n] rows of [.reshape(n, COLS)]. *)
Fixpoint rows_of (n : nat) (data : list Z) : Board :=
  match n with
  | O => []
  | S n' => take COLS data :: rows_of n' (drop COLS data)
  end.

(** [.reshape(ROWS, COLS)]: defined for 42 entries only. *)
Definition reshape (data : list Z) : option Board :=
  if decide (length data = (ROWS * COLS)%nat) then Some (rows_of ROWS data)
  else None.

Section Api.

Variable zobrist : nat → nat → nat → Z.
Variable clock : nat → Z.
Variable time_limit : Z.
Variable max_depth : Z.

Definition act (observation : BoardInput) : option nat :=
  data ← array_data observation;
  b ← reshape data;
  Some (best_move zobrist clock time_limit max_depth b (-1)).

Definition policy (obs : BoardInput) : option nat := act obs.
Definition get_action (obs : BoardInput) : option nat := act obs.

Definition play (board_input : BoardInput) : option nat :=
  data ← array_data board_input;
  if decide (length data = 42%nat) then
    Some (best_move zobrist clock time_limit max_depth (rows_of ROWS data) (-1))
  else if negb (shape_6x7 board_input) then None
  else
    match board_input with
    | Grid g => Some (best_move zobrist clock time_limit max_depth g (-1))
    | Flat _ => None
    end.

End Api.

(** ** Hash contributions *)

(** What one cell holding [v] adds to the hash. *)
Definition piece_key (zobrist : nat → nat → nat → Z) (r c : nat) (v : Z) : Z :=
  if v =? 1 then zobrist r c 0%nat
  else if v =? -1 then zobrist r c 1%nat
  else 0.

(** Exclusive or of a list of keys. *)
Definition xors (l : list Z) : Z := fold_left Z.lxor l 0.

(** Every entry of the table is an unsigned 64-bit number. *)
Definition table64 (zobrist : nat → nat → nat → Z) : Prop :=
  ∀ r c i, 0 <= zobrist r c i < 2 ^ 64.

(** Every score kept in the table is a number no larger than a win. *)
Definition tt_bounded (t : gmap Z TTEntry) : Prop :=
  ∀ k e, t !! k = Some e →
    ∃ v, e_score e = Fin v ∧ - WIN_SCORE <= v <= WIN_SCORE.

(** ** What a search call may do to the state

    [st'] follows [st] when the start time is kept, clock readings were
    only consumed, no key left the table, and the stop flag is up in
    [st'] exactly when it was up in [st] or one of the readings consumed
    in between was at or past the limit. *)
Definition follows (clock : nat → Z) (time_limit : Z) (st st' : State) : Prop :=
  start_time st' = start_time st ∧
  (now st <= now st')%nat ∧
  dom (tt st) ⊆ dom (tt st') ∧
  (stop st' = true ↔
   stop st = true ∨
   ∃ k, (now st <= k < now st')%nat ∧ time_limit <= clock k - start_time st).

Definition child_follows (clock : nat → Z) (time_limit : Z)
    (child : Z → Score → Score → State → Score * State) : Prop :=
  ∀ p a b st, follows clock time_limit st (child p a b st).2.

(** A score that is a number between a loss and a win. *)
Definition fin_bounded (s : Score) : Prop :=
  ∃ v, s = Fin v ∧ - WIN_SCORE <= v <= WIN_SCORE.

(** A child call that, from a table of bounded scores and a six-row
    board, returns a bounded score and a table of bounded scores. *)
Definition child_bounded
    (child : Z → Score → Score → State → Score * State) : Prop :=
  ∀ p a b st, tt_bounded (tt st) → length (board st) = ROWS →
    fin_bounded (child p a b st).1 ∧ tt_bounded (tt (child p a b st).2).



(** A child call that hands the board back as it got it. *)
Definition restores (child : Z → Score → Score → State → Score * State) : Prop :=
  ∀ p a b st, board (child p a b st).2 = board st.

(** * Properties *)

(** ** Order on scores *)

Lemma sle_refl a : sle a a = true.
Proof. destruct a; simpl; auto. apply Z.leb_refl. Qed.

Lemma sle_trans a b c : sle a b = true → sle b c = true → sle a c = true.
Proof.
  destruct a, b, c; simpl; auto; try discriminate.
  rewrite !Z.leb_le. lia.
Qed.

Lemma sle_total a b : sle a b = true ∨ sle b a = true.
Proof. destruct a, b; simpl; auto. rewrite !Z.leb_le. lia. Qed.

Lemma slt_sle a b : slt a b = true → sle a b = true.
Proof.
  unfold slt. destruct (sle_total a b) as [H|H]; auto.
  rewrite H. discriminate.
Qed.

Lemma sle_smax_l a b : sle a (smax a b) = true.
Proof.
  unfold smax. destruct (slt a b) eqn:E; [by apply slt_sle | apply sle_refl].
Qed.

Lemma sle_smax_r a b : sle b (smax a b) = true.
Proof.
  unfold smax, slt. destruct (sle b a) eqn:E; simpl; [done | apply sle_refl].
Qed.

(** ** Making a move and taking it back *)

Lemma next_open_row_empty b col r :
  _next_open_row b col = Some r → cell b r col = 0 ∧ (r < ROWS)%nat.
Proof.
  unfold _next_open_row. intros H.
  apply find_some in H as [Hin Hc].
  apply bool_decide_eq_true in Hc. split; [done |].
  apply list_elem_of_In, elem_of_reverse, elem_of_seq in Hin. lia.
Qed.

Lemma set_cell_undo b r col v :
  cell b r col = 0 → set_cell (set_cell b r col v) r col 0 = b.
Proof.
  unfold set_cell, cell. intros H.
  rewrite list_alter_alter_eq.
  apply list_eq. intros i.
  destruct (decide (i = r)) as [->|Hne].
  - rewrite list_lookup_alter_eq.
    destruct (b !! r) as [row|] eqn:Hr; [|done]. simpl. f_equal.
    rewrite list_insert_insert_eq.
    destruct (row !! col) as [x|] eqn:Hc; simpl in H.
    + subst x. by apply list_insert_id.
    + apply list_insert_ge. by apply lookup_ge_None.
  - by rewrite list_lookup_alter_ne.
Qed.

Section Search.

Variable zobrist : nat → nat → nat → Z.
Variable clock : nat → Z.
Variable time_limit : Z.

Local Abbreviation negamax := (_negamax zobrist clock time_limit).
Local Abbreviation negamax_root := (_negamax_root zobrist clock time_limit).

Lemma try_move_board child player alpha beta r col st :
  restores child → cell (board st) r col = 0 →
  board (try_move child player alpha beta r col st).2 = board st.
Proof.
  intros Hc Hr. unfold try_move.
  set (st1 := with_board st _).
  destruct (_is_win (board st1) player r col).
  - simpl. by apply set_cell_undo.
  - specialize (Hc (- player) (sneg beta) (sneg alpha) st1).
    destruct (child _ _ _ st1) as [v s]. simpl in *. rewrite Hc.
    by apply set_cell_undo.
Qed.

Lemma search_loop_board child player beta cols value best alpha st :
  restores child →
  board (search_loop child player beta cols value best alpha st).2 = board st.
Proof.
  intros Hc. revert value best alpha st.
  induction cols as [|col cols IH]; intros value best alpha st; simpl; [done |].
  destruct (_next_open_row (board st) col) as [r|] eqn:Hr; [|apply IH].
  apply next_open_row_empty in Hr as [Hr _].
  pose proof (try_move_board child player alpha beta r col st Hc Hr) as Hm.
  destruct (try_move _ _ _ _ _ _ _) as [score st3]. simpl in Hm.
  destruct (sle beta _); [done | by rewrite IH].
Qed.

Lemma negamax_board depth player alpha beta st :
  board (negamax depth player alpha beta st).2 = board st.
Proof.
  revert player alpha beta st.
  induction depth as [|d IH]; intros player alpha beta st; simpl.
  - destruct (time_limit <=? _); [done |].
    destruct (tt_probe _ _ _ _ _); [done |].
    by destruct (_valid_moves _).
  - destruct (time_limit <=? _); [done |].
    destruct (tt_probe _ _ _ _ _) as [|a' b']; [done |].
    destruct (_valid_moves _) eqn:Hv; [done |]. rewrite <- Hv.
    pose proof (search_loop_board (negamax d) player b'
      (_order_with_tt_first (tt (tick st)) (_valid_moves (board (tick st)))
         (_hash zobrist (board (tick st)))) NegInf None a' (tick st)) as H.
    destruct (search_loop _ _ _ _ _ _ _ _) as [[[v bm] a''] st'].
    simpl in *. apply H. intros ????. apply IH.
Qed.

Lemma root_loop_board child player beta cols best_score best alpha st :
  restores child →
  board (root_loop clock time_limit child player beta cols best_score best alpha st).2
  = board st.
Proof.
  intros Hc. revert best_score best alpha st.
  induction cols as [|col cols IH]; intros best_score best alpha st; simpl; [done |].
  destruct (time_limit <=? _); [done |].
  destruct (_next_open_row (board st) col) as [r|] eqn:Hr; [|by rewrite IH].
  apply next_open_row_empty in Hr as [Hr _].
  pose proof (try_move_board child player alpha beta r col (tick st) Hc Hr) as Hm.
  destruct (try_move _ _ _ _ _ _ _) as [score st3]. simpl in Hm.
  destruct (sle beta _); [done | by rewrite IH].
Qed.

Lemma negamax_root_board depth player alpha beta st :
  board (negamax_root depth player alpha beta st).2 = board st.
Proof.
  unfold _negamax_root. apply root_loop_board.
  intros ????. apply negamax_board.
Qed.

(** *** Board restoration *)

(** C9: every negamax invocation, interior or root, returns with the cell
    contents of the board exactly as they were on entry; the statement
    ranges over every state, clock and table, hence over every path
    (time abort, early table return, draw, leaf, cutoff). *)
Theorem negamax_restores_board depth player alpha beta st :
  board (_negamax zobrist clock time_limit depth player alpha beta st).2
    = board st ∧
  board (_negamax_root zobrist clock time_limit (S depth) player alpha beta st).2
    = board st.
Proof. split; [apply negamax_board | apply negamax_root_board]. Qed.

(** *** The column returned by [best_move] *)

Lemma ordered_moves_valid b c : c ∈ _ordered_moves b → c ∈ _valid_moves b.
Proof.
  unfold _ordered_moves, _valid_moves. rewrite !list_elem_of_filter.
  intros [H Hin]. split; [done |].
  apply elem_of_seq. unfold MOVE_ORDER in Hin.
  repeat (apply elem_of_cons in Hin as [->|Hin]; [unfold COLS; lia |]).
  by apply elem_of_nil in Hin.
Qed.

Lemma root_loop_move child player beta cols best_score best alpha st c :
  (root_loop clock time_limit child player beta cols best_score best alpha st).1.2
    = Some c →
  c ∈ cols ∨ best = Some c.
Proof.
  revert best_score best alpha st.
  induction cols as [|col cols IH]; intros best_score best alpha st; simpl;
    [by right |].
  destruct (time_limit <=? _); [by right |].
  destruct (_next_open_row (board st) col) as [r|].
  - destruct (try_move _ _ _ _ _ _ _) as [score st3].
    assert (Hb : ∀ o : option nat,
      (if slt best_score score then Some col else best) = o →
      o = Some c → c ∈ col :: cols ∨ best = Some c).
    { intros o <-. destruct (slt best_score score); [|by right].
      intros [= ->]. left. apply list_elem_of_here. }
    destruct (sle beta _); simpl.
    + by apply Hb.
    + intros H. apply IH in H as [H|H]; [left; by apply list_elem_of_further |].
      by apply Hb in H.
  - intros H. apply IH in H as [H|H]; [left; by apply list_elem_of_further | by right].
Qed.

Lemma deepen_board depths max_player best_col st :
  board (deepen zobrist clock time_limit depths max_player best_col st).2 = board st.
Proof.
  revert best_col st.
  induction depths as [|d depths IH]; intros best_col st; simpl; [done |].
  destruct (time_limit <=? _); [done |].
  pose proof (negamax_root_board d max_player NegInf PosInf (tick st)) as Hb.
  destruct (negamax_root _ _ _ _ _) as [[score move] st']. simpl in Hb.
  destruct (stop st'); [done |]. by rewrite IH.
Qed.

Lemma deepen_legal depths player best_col st :
  best_col ∈ _valid_moves (board st) →
  (deepen zobrist clock time_limit depths player best_col st).1
    ∈ _valid_moves (board st).
Proof.
  revert best_col st.
  induction depths as [|d depths IH]; intros best_col st Hin; simpl; [done |].
  destruct (time_limit <=? _); [done |].
  pose proof (negamax_root_board d player NegInf PosInf (tick st)) as Hb.
  pose proof (λ c, root_loop_move (negamax (d - 1)) player PosInf
    (_ordered_moves (board (tick st))) NegInf None NegInf (tick st) c) as Hm.
  unfold _negamax_root in *.
  destruct (root_loop _ _ _ _ _ _ _ _ _ _) as [[score move] st'].
  simpl in Hb, Hm.
  destruct (stop st'); [done |].
  rewrite <- Hb. apply IH. rewrite Hb.
  destruct move as [m|]; simpl; [|done].
  destruct (Hm m eq_refl) as [H|H]; [by apply ordered_moves_valid | done].
Qed.

End Search.

(** C6: on a board with at least one legal column, [best_move] returns a
    legal column (in range, top cell empty) whatever the clock does, also
    when the budget is spent before the depth-1 pass, and for every
    [max_depth]. *)
Theorem best_move_legal zobrist clock time_limit max_depth b player :
  wf_board b → _valid_moves b ≠ [] →
  let col := best_move zobrist clock time_limit max_depth b player in
  (col < COLS)%nat ∧ cell b 0 col = 0.
Proof.
  intros _ Hne col.
  assert (Hin : col ∈ _valid_moves b).
  { subst col. unfold best_move, best_move_run.
    destruct (_valid_moves b) as [|c0 cs] eqn:Hv; [done |].
    rewrite <- Hv.
    apply (deepen_legal zobrist clock time_limit _ player c0
             (init_state clock b)).
    simpl. rewrite Hv. apply list_elem_of_here. }
  unfold _valid_moves in Hin.
  apply list_elem_of_filter in Hin as [Hc Hin].
  apply elem_of_seq in Hin. split; [lia | done].
Qed.

Lemma best_move_legal_witness :
  let col := best_move sample_zobrist frozen_clock 0 3 empty_board (-1) in
  (col < COLS)%nat ∧ cell empty_board 0 col = 0.
Proof. apply best_move_legal; [reflexivity | discriminate]. Defined.

(** C4 (as amended): on a board without a legal column [best_move]
    returns the fixed fallback column 3. *)
Theorem best_move_no_legal_column zobrist clock time_limit max_depth b player :
  _valid_moves b = [] →
  best_move zobrist clock time_limit max_depth b player = 3%nat.
Proof. intros H. unfold best_move, best_move_run. by rewrite H. Qed.

Lemma best_move_no_legal_column_witness :
  best_move sample_zobrist frozen_clock 1 3 full_board 1 = 3%nat.
Proof. apply best_move_no_legal_column. reflexivity. Defined.

(** C4 (as stated) fails: the value returned on a full board is the
    ordinary column 3, the very answer given on a board where the centre
    column is the legal move. *)
Lemma best_move_fallback_is_a_column :
  _valid_moves full_board = [] ∧
  _valid_moves centre_open_board = [3%nat] ∧
  best_move sample_zobrist frozen_clock 1 3 full_board 1
  = best_move sample_zobrist frozen_clock 1 3 centre_open_board 1.
Proof. by vm_compute. Qed.

(** ** Move ordering *)

Lemma filter_ext_elem {A} (P Q : A → Prop) `{!∀ x, Decision (P x)}
    `{!∀ x, Decision (Q x)} (l : list A) :
  (∀ x, x ∈ l → P x ↔ Q x) → filter P l = filter Q l.
Proof.
  induction l as [|a l IH]; intros Hext; [done |].
  rewrite !filter_cons.
  rewrite IH by (intros x Hx; apply Hext; by apply list_elem_of_further).
  apply decide_ext, Hext, list_elem_of_here.
Qed.

Lemma valid_moves_legal b c : c ∈ _valid_moves b ↔ legal b c.
Proof.
  unfold _valid_moves, legal. rewrite list_elem_of_filter, elem_of_seq.
  unfold COLS. split; intros []; split; (done || lia).
Qed.

Lemma move_order_perm : MOVE_ORDER ≡ₚ seq 0 COLS.
Proof.
  apply NoDup_Permutation;
    [apply (bool_decide_unpack _); by vm_compute | apply NoDup_seq |].
  intros x. rewrite elem_of_seq. unfold MOVE_ORDER, COLS.
  rewrite !elem_of_cons, elem_of_nil. lia.
Qed.

Lemma centre_out_legal_perm b : centre_out_legal b ≡ₚ _valid_moves b.
Proof.
  unfold centre_out_legal, _valid_moves. rewrite move_order_perm.
  erewrite filter_ext_elem; [done |].
  intros x Hx. apply elem_of_seq in Hx. unfold legal. intuition lia.
Qed.

(** C8: the candidate list of a node is the legal columns in the
    centre-outward order 3, 4, 2, 5, 1, 6, 0, unless the table has an
    entry under the node's key whose best move is still legal: then that
    move comes first and the other legal columns follow in the
    centre-outward order.  The list is a rearrangement of the legal
    columns. *)
Theorem order_with_tt_first_spec (t : gmap Z TTEntry) (b : Board) (key : Z) :
  let centre_out := filter (legal b) [3; 4; 2; 5; 1; 6; 0]%nat in
  _order_with_tt_first t (_valid_moves b) key =
    match t !! key ≫= e_best_move with
    | Some m =>
        if decide (legal b m)
        then m :: filter (λ c, c ≠ m) centre_out
        else centre_out
    | None => centre_out
    end
  ∧ centre_out ≡ₚ _valid_moves b.
Proof.
  change (filter (legal b) [3; 4; 2; 5; 1; 6; 0]%nat) with (centre_out_legal b).
  cbv zeta. split; [|apply centre_out_legal_perm].
  assert (Hplain : filter (λ c, c ∈ _valid_moves b) MOVE_ORDER = centre_out_legal b).
  { apply filter_ext_elem. intros x _. apply valid_moves_legal. }
  unfold _order_with_tt_first.
  destruct (t !! key) as [e|]; simpl; [|done].
  destruct (e_best_move e) as [m|]; simpl; [|done].
  destruct (decide (legal b m)) as [Hl|Hl].
  - rewrite bool_decide_eq_true_2 by by apply valid_moves_legal.
    f_equal. unfold centre_out_legal. rewrite list_filter_filter.
    apply filter_ext_elem. intros x _. by rewrite valid_moves_legal.
  - rewrite bool_decide_eq_false_2; [done |]. by rewrite valid_moves_legal.
Qed.

(** ** Leaves and table entries *)

Section Nodes.

Variable zobrist : nat → nat → nat → Z.
Variable clock : nat → Z.
Variable time_limit : Z.

Lemma search_loop_value_alpha child player beta cols value best alpha st :
  sle value alpha = true →
  let res := search_loop child player beta cols value best alpha st in
  sle res.1.1.1 res.1.2 = true.
Proof.
  revert value best alpha st.
  induction cols as [|col cols IH]; intros value best alpha st Hle; simpl; [done |].
  destruct (_next_open_row (board st) col) as [r|]; [|by apply IH].
  destruct (try_move _ _ _ _ _ _ _) as [score st3].
  assert (Hle' : sle (if slt value score then score else value)
                     (smax alpha score) = true).
  { destruct (slt value score).
    - apply sle_smax_r.
    - eapply sle_trans; [exact Hle | apply sle_smax_l]. }
  destruct (sle beta _); [done | by apply IH].
Qed.

(** Whenever [_negamax] gets as far as its write-back, the entry it
    stores carries flag 1: the running [alpha] has already absorbed every
    score, so [value <= alpha] cannot fail. *)
Lemma negamax_entry_flag d player alpha beta st a' b' :
  (time_limit <=? clock (now st) - start_time st) = false →
  tt_probe (tt st) (_hash zobrist (board st)) (S d) alpha beta = Miss a' b' →
  _valid_moves (board st) ≠ [] →
  let res := _negamax zobrist clock time_limit (S d) player alpha beta st in
  ∃ e, tt res.2 !! _hash zobrist (board st) = Some e ∧
       e_flag e = 1 ∧ e_score e = res.1 ∧ e_depth e = S d.
Proof.
  intros Ht Hp Hv. simpl. rewrite Ht. simpl. rewrite Hp.
  destruct (_valid_moves (board st)) as [|c0 cs] eqn:Hvm; [done |].
  pose proof (search_loop_value_alpha
    (_negamax zobrist clock time_limit d) player b'
    (_order_with_tt_first (tt st) (c0 :: cs) (_hash zobrist (board st)))
    NegInf None a' (tick st) eq_refl) as Hle.
  destruct (search_loop _ _ _ _ _ _ _ _) as [[[v bm] a''] st'].
  simpl in *. eexists. rewrite lookup_insert_eq. split; [done |].
  simpl. unfold store_flag. by rewrite Hle.
Qed.

End Nodes.

(** C2 (the code departs from it): a depth-1 node on the empty board,
    entered with the open window (-inf, +inf), ends with a finite value
    strictly inside that window, yet the entry it stores carries flag 1
    (upper bound), not 0 (exact). *)
Theorem negamax_open_window_flag :
  let st := init_state frozen_clock empty_board in
  let res := _negamax sample_zobrist frozen_clock 1 1 (-1) NegInf PosInf st in
  res.1 = Fin 41 ∧
  slt NegInf res.1 = true ∧ slt res.1 PosInf = true ∧
  e_flag <$> tt res.2 !! _hash sample_zobrist empty_board = Some 1.
Proof. by vm_compute. Qed.

(** ** The heuristic *)

Lemma count_eq_nonneg v l : 0 <= count_eq v l.
Proof. unfold count_eq. lia. Qed.

Lemma window_step_value b score w :
  window_step b score w =
  score + window_value 35 (count_eq (-1) (window_cells b w))
            (count_eq 1 (window_cells b w)) (count_eq 0 (window_cells b w)).
Proof.
  unfold window_step, window_value, window_cells.
  pose proof (count_eq_nonneg (-1) ((λ '(r, c), cell b r c) <$> w)).
  pose proof (count_eq_nonneg 1 ((λ '(r, c), cell b r c) <$> w)).
  repeat match goal with
  | |- context [?x =? ?y] => destruct (Z.eqb_spec x y)
  | |- context [?x <? ?y] => destruct (Z.ltb_spec x y)
  end; simpl; lia.
Qed.

Lemma fold_window_step b ws init :
  fold_left (window_step b) ws init =
  init + foldr (λ w acc,
      window_value 35 (count_eq (-1) (window_cells b w))
        (count_eq 1 (window_cells b w)) (count_eq 0 (window_cells b w)) + acc)
      0 ws.
Proof.
  revert init. induction ws as [|w ws IH]; intros init; simpl; [lia |].
  rewrite IH, window_step_value. lia.
Qed.

Lemma center_array_column b : wf_board b → center_array b = centre_column b.
Proof.
  unfold wf_board, center_array, centre_column. intros Hwf.
  assert (Hlen : length b = ROWS).
  { apply (f_equal length) in Hwf.
    by rewrite length_fmap, length_replicate in Hwf. }
  apply list_eq. intros i. rewrite !list_lookup_fmap.
  destruct (decide (i < ROWS)%nat) as [Hi|Hi].
  - rewrite lookup_seq_lt by done. simpl. unfold cell.
    destruct (b !! i) as [row|] eqn:Hrow; [done |].
    apply lookup_ge_None in Hrow. lia.
  - rewrite lookup_seq_ge by lia.
    rewrite (proj2 (lookup_ge_None b i)) by lia. done.
Qed.

(** C3 (as amended): the heuristic is 6 times the centre-column balance
    plus, over the windows held by one side only, +1000 / +30 / +5 for
    Self and -1200 / -35 / -5 for the Opponent; mixed windows add 0. *)
Theorem evaluate_heuristic b : wf_board b → _evaluate b = heuristic 35 b.
Proof.
  intros Hwf. unfold _evaluate, heuristic.
  rewrite fold_window_step, (center_array_column b Hwf). lia.
Qed.

Lemma evaluate_heuristic_witness : _evaluate pair_board = heuristic 35 pair_board.
Proof. apply evaluate_heuristic. reflexivity. Defined.

(** C3 (as stated) fails: with the Opponent's two-with-two-empty pattern
    weighted 30, the formula gives -55 on [pair_board], the code -60. *)
Lemma evaluate_pair_weight :
  _evaluate pair_board = -60 ∧ heuristic 30 pair_board = -55 ∧
  _evaluate pair_board ≠ heuristic 30 pair_board.
Proof. by vm_compute. Qed.

(** C10: a depth-0 node that reaches the leaf evaluation (clock not up, no
    early return from the table, a legal column left) returns
    [_evaluate] of the board for the player -1 and its negation for the
    player 1.  [_evaluate] itself takes no player: on a 6x7 board it is
    the heuristic read from the side -1, whoever is to move, so the
    player 1 gets the negated view of -1 and not the heuristic read from
    its own side; the two differ, since a threat of 1 weighs 1200 and a
    pair of 1 weighs 35 where those of -1 weigh 1000 and 30. *)
Theorem negamax_leaf_value zobrist clock time_limit player alpha beta st a' b' :
  (time_limit <=? clock (now st) - start_time st) = false →
  tt_probe (tt st) (_hash zobrist (board st)) 0 alpha beta = Miss a' b' →
  _valid_moves (board st) ≠ [] →
  let value := (_negamax zobrist clock time_limit 0 player alpha beta st).1 in
  (player = -1 → value = Fin (_evaluate (board st))) ∧
  (player = 1 → value = Fin (- _evaluate (board st))) ∧
  (wf_board (board st) →
   _evaluate (board st) = heuristic_of (-1) (board st) ∧
   value = Fin ((if player =? -1 then 1 else -1) * heuristic_of (-1) (board st))) ∧
  (∃ b, wf_board b ∧ - heuristic_of (-1) b ≠ heuristic_of 1 b).
Proof.
  intros Ht Hp Hv.
  assert (Hval : (_negamax zobrist clock time_limit 0 player alpha beta st).1
    = Fin (_evaluate (board st) * (if player =? -1 then 1 else -1))).
  { simpl. rewrite Ht. simpl. rewrite Hp.
    by destruct (_valid_moves (board st)). }
  cbv zeta. rewrite Hval.
  split; [intros ->; simpl; f_equal; lia |].
  split; [intros ->; simpl; f_equal; lia |].
  split.
  - intros Hwf.
    assert (He : _evaluate (board st) = heuristic_of (-1) (board st)).
    { unfold _evaluate, heuristic_of.
      rewrite fold_window_step, (center_array_column _ Hwf).
      change (- -1) with 1. lia. }
    split; [done |]. rewrite He. f_equal. lia.
  - exists pair_board. split; [reflexivity | by vm_compute].
Qed.

Lemma negamax_leaf_value_witness :
  let st := init_state frozen_clock pair_board in
  let value := (_negamax sample_zobrist frozen_clock 1 0 1 NegInf PosInf st).1 in
  (1 = -1 → value = Fin (_evaluate (board st))) ∧
  (1 = 1 → value = Fin (- _evaluate (board st))) ∧
  (wf_board (board st) →
   _evaluate (board st) = heuristic_of (-1) (board st) ∧
   value = Fin ((if 1 =? -1 then 1 else -1) * heuristic_of (-1) (board st))) ∧
  (∃ b, wf_board b ∧ - heuristic_of (-1) b ≠ heuristic_of 1 b).
Proof.
  apply (negamax_leaf_value sample_zobrist frozen_clock 1 1 NegInf PosInf
           (init_state frozen_clock pair_board) NegInf PosInf);
    [reflexivity | reflexivity | by vm_compute].
Defined.

(** ** The local win check *)

Lemma in_board_spec rr cc :
  in_board rr cc = true ↔ 0 <= rr < 6 ∧ 0 <= cc < 7.
Proof.
  unfold in_board, ROWS, COLS.
  rewrite !andb_true_iff, !Z.leb_le, !Z.ltb_lt. lia.
Qed.

Lemma owned_spec b player rr cc :
  owned b player rr cc = true ↔
  (0 <= rr < 6 ∧ 0 <= cc < 7) ∧ cell b (Z.to_nat rr) (Z.to_nat cc) = player.
Proof.
  unfold owned. by rewrite andb_true_iff, in_board_spec, Z.eqb_eq.
Qed.

Section CountDir.

Variable b : Board.
Variable player dr dc : Z.

Lemma count_loop_bounds fuel rr cc :
  0 <= count_dir_loop fuel b player dr dc rr cc <= Z.of_nat fuel.
Proof.
  revert rr cc. induction fuel as [|fuel IH]; intros rr cc;
    cbn [count_dir_loop]; [lia |].
  destruct (in_board rr cc && _); [|lia].
  specialize (IH (rr + dr) (cc + dc)). lia.
Qed.

(** The cells counted are owned ... *)
Lemma count_loop_prefix fuel rr cc i :
  0 <= i < count_dir_loop fuel b player dr dc rr cc →
  owned b player (rr + i * dr) (cc + i * dc) = true.
Proof.
  revert rr cc i. induction fuel as [|fuel IH]; intros rr cc i;
    cbn [count_dir_loop]; [lia |].
  destruct (in_board rr cc && _) eqn:Ho; [|lia].
  intros Hi. destruct (decide (i = 0)) as [->|Hne].
  - by rewrite Z.mul_0_l, !Z.add_0_r.
  - replace (rr + i * dr) with (rr + dr + (i - 1) * dr) by ring.
    replace (cc + i * dc) with (cc + dc + (i - 1) * dc) by ring.
    apply IH. lia.
Qed.

(** ... and the loop stops at the first cell that is not, unless it
    runs for all its iterations. *)
Lemma count_loop_stop fuel rr cc :
  let k := count_dir_loop fuel b player dr dc rr cc in
  k < Z.of_nat fuel → owned b player (rr + k * dr) (cc + k * dc) = false.
Proof.
  revert rr cc. induction fuel as [|fuel IH]; intros rr cc;
    cbn [count_dir_loop]; [lia |].
  destruct (in_board rr cc && _) eqn:Ho.
  - intros Hk.
    set (k := count_dir_loop fuel b player dr dc (rr + dr) (cc + dc)) in *.
    replace (rr + (1 + k) * dr) with (rr + dr + k * dr) by ring.
    replace (cc + (1 + k) * dc) with (cc + dc + k * dc) by ring.
    apply IH. fold k. lia.
  - intros _. by rewrite Z.mul_0_l, !Z.add_0_r.
Qed.

Lemma count_loop_ge fuel rr cc n :
  n <= Z.of_nat fuel →
  (∀ i, 0 <= i < n → owned b player (rr + i * dr) (cc + i * dc) = true) →
  n <= count_dir_loop fuel b player dr dc rr cc.
Proof.
  intros Hn Hown.
  pose proof (count_loop_bounds fuel rr cc) as Hb.
  pose proof (count_loop_stop fuel rr cc) as Hs. cbv zeta in Hs.
  destruct (Z_lt_le_dec (count_dir_loop fuel b player dr dc rr cc) n) as [Hlt|];
    [|done].
  rewrite Hown in Hs by lia. discriminate Hs. lia.
Qed.

(** Seven iterations are all the loop can make on a seven-column board:
    more fuel does not change the count. *)
Lemma count_dir_fuel fuel rr cc :
  (dr ≠ 0 ∨ dc ≠ 0) → -1 <= dr <= 1 → -1 <= dc <= 1 →
  in_board rr cc = true → (7 <= fuel)%nat →
  count_dir_loop fuel b player dr dc rr cc
  = count_dir_loop 7 b player dr dc rr cc.
Proof.
  intros Hd Hdr Hdc Hin Hf.
  assert (Hout : ∀ f, count_dir_loop f b player dr dc rr cc <= 7).
  { intros f. pose proof (count_loop_bounds f rr cc) as Hb.
    destruct (Z_lt_le_dec 7 (count_dir_loop f b player dr dc rr cc)) as [Hlt|];
      [|done].
    pose proof (count_loop_prefix f rr cc 7 ltac:(lia)) as Ho.
    apply owned_spec in Ho. apply in_board_spec in Hin. lia. }
  assert (Hchar : ∀ f, (7 <= f)%nat → ∀ k,
    k = count_dir_loop f b player dr dc rr cc →
    (∀ i, 0 <= i < k → owned b player (rr + i * dr) (cc + i * dc) = true) ∧
    (k < 7 → owned b player (rr + k * dr) (cc + k * dc) = false)).
  { intros f Hf7 k ->. split.
    - intros i. apply count_loop_prefix.
    - intros Hk. apply count_loop_stop. lia. }
  destruct (Hchar fuel Hf _ eq_refl) as [Hp1 Hs1].
  destruct (Hchar 7%nat (le_n _) _ eq_refl) as [Hp2 Hs2].
  pose proof (Hout fuel). pose proof (Hout 7%nat).
  pose proof (count_loop_bounds fuel rr cc).
  pose proof (count_loop_bounds 7 rr cc).
  set (k1 := count_dir_loop fuel b player dr dc rr cc) in *.
  set (k2 := count_dir_loop 7 b player dr dc rr cc) in *.
  destruct (Z.lt_trichotomy k1 k2) as [Hlt|[Heq|Hgt]]; [|done|].
  - rewrite Hp2 in Hs1 by lia. discriminate Hs1. lia.
  - rewrite Hp1 in Hs2 by lia. discriminate Hs2. lia.
Qed.

End CountDir.

(** Four or more in a run through (r, c) along one axis: some window of
    four cells on that axis, with (r, c) its j-th cell, is owned. *)
Lemma axis_run_iff b player (r c : nat) dr dc :
  4 <= count_dir b player r c dr dc + count_dir b player r c (- dr) (- dc) - 1
  ↔ ∃ j, 0 <= j <= 3 ∧ ∀ i, 0 <= i <= 3 →
      owned b player (Z.of_nat r + (i - j) * dr) (Z.of_nat c + (i - j) * dc) = true.
Proof.
  unfold count_dir.
  set (kf := count_dir_loop 7 b player dr dc (Z.of_nat r) (Z.of_nat c)).
  set (kb := count_dir_loop 7 b player (- dr) (- dc) (Z.of_nat r) (Z.of_nat c)).
  pose proof (count_loop_bounds b player dr dc 7 (Z.of_nat r) (Z.of_nat c)) as Hbf.
  pose proof (count_loop_bounds b player (- dr) (- dc) 7 (Z.of_nat r) (Z.of_nat c)) as Hbb.
  pose proof (count_loop_prefix b player dr dc 7 (Z.of_nat r) (Z.of_nat c)) as Hpf.
  pose proof (count_loop_prefix b player (- dr) (- dc) 7 (Z.of_nat r) (Z.of_nat c)) as Hpb.
  fold kf in Hbf, Hpf. fold kb in Hbb, Hpb.
  split.
  - intros Htot.
    assert (Hf1 : 1 <= kf).
    { destruct (Z_lt_le_dec kf 1) as [Hlt|]; [|done].
      pose proof (count_loop_stop b player dr dc 7 (Z.of_nat r) (Z.of_nat c)) as Hs.
      cbv zeta in Hs. fold kf in Hs.
      assert (kf = 0) as Hk0 by lia. rewrite Hk0 in Hs.
      rewrite Z.mul_0_l, !Z.add_0_r in Hs.
      specialize (Hpb 0 ltac:(lia)).
      rewrite Z.mul_0_l, !Z.add_0_r in Hpb.
      rewrite Hs in Hpb by lia. discriminate. }
    assert (Hb1 : 1 <= kb).
    { destruct (Z_lt_le_dec kb 1) as [Hlt|]; [|done].
      pose proof (count_loop_stop b player (- dr) (- dc) 7
                    (Z.of_nat r) (Z.of_nat c)) as Hs.
      cbv zeta in Hs. fold kb in Hs.
      assert (kb = 0) as Hk0 by lia. rewrite Hk0 in Hs.
      rewrite Z.mul_0_l, !Z.add_0_r in Hs.
      specialize (Hpf 0 ltac:(lia)).
      rewrite Z.mul_0_l, !Z.add_0_r in Hpf.
      rewrite Hs in Hpf by lia. discriminate. }
    exists (Z.min (kb - 1) 3). split; [lia |].
    intros i Hi.
    destruct (Z_lt_le_dec (i - Z.min (kb - 1) 3) 0) as [Hneg|Hpos].
    + replace ((i - Z.min (kb - 1) 3) * dr)
        with ((Z.min (kb - 1) 3 - i) * - dr) by ring.
      replace ((i - Z.min (kb - 1) 3) * dc)
        with ((Z.min (kb - 1) 3 - i) * - dc) by ring.
      apply Hpb. lia.
    + apply Hpf. lia.
  - intros (j & Hj & Hown).
    assert (4 - j <= kf).
    { apply (count_loop_ge b player dr dc 7); [lia |].
      intros i Hi. specialize (Hown (i + j) ltac:(lia)).
      by replace (i + j - j) with i in Hown by lia. }
    assert (j + 1 <= kb).
    { apply (count_loop_ge b player (- dr) (- dc) 7); [lia |].
      intros i Hi. specialize (Hown (j - i) ltac:(lia)).
      replace ((j - i - j) * dr) with (i * - dr) in Hown by ring.
      by replace ((j - i - j) * dc) with (i * - dc) in Hown by ring. }
    lia.
Qed.

(** The catalogue is exactly the lines of four that fit on the board, in
    the four directions of [AXES]. *)
Lemma windows_are_lines w :
  w ∈ WINDOWS →
  ∃ sr sc dr dc, (dr, dc) ∈ AXES ∧ line_in_board sr sc dr dc = true ∧
                 w = line sr sc dr dc.
Proof.
  assert (Hall : forallb (λ w,
    existsb (λ '(dr, dc),
      existsb (λ sr,
        existsb (λ sc,
          line_in_board sr sc dr dc && bool_decide (w = line sr sc dr dc))
          (seqZ 0 7)) (seqZ 0 6)) AXES) WINDOWS = true) by by vm_compute.
  intros Hw. rewrite forallb_forall in Hall.
  apply list_elem_of_In, Hall in Hw.
  apply existsb_exists in Hw as ([dr dc] & Hax & Hw).
  apply existsb_exists in Hw as (sr & _ & Hw).
  apply existsb_exists in Hw as (sc & _ & Hw).
  apply andb_true_iff in Hw as [Hin Heq].
  apply bool_decide_eq_true in Heq.
  exists sr, sc, dr, dc. by rewrite list_elem_of_In.
Qed.

Lemma lines_are_windows sr sc dr dc :
  (dr, dc) ∈ AXES → line_in_board sr sc dr dc = true →
  line sr sc dr dc ∈ WINDOWS.
Proof.
  assert (Hall : forallb (λ '(dr, dc),
    forallb (λ sr,
      forallb (λ sc,
        implb (line_in_board sr sc dr dc)
              (bool_decide (line sr sc dr dc ∈ WINDOWS)))
        (seqZ 0 7)) (seqZ 0 6)) AXES = true) by by vm_compute.
  intros Hax Hin. rewrite forallb_forall in Hall.
  apply list_elem_of_In, Hall in Hax. rewrite forallb_forall in Hax.
  assert (Hfirst : in_board sr sc = true).
  { unfold line_in_board in Hin. simpl in Hin.
    apply andb_true_iff in Hin as [Hin _].
    by rewrite !Z.mul_0_l, !Z.add_0_r in Hin. }
  apply in_board_spec in Hfirst.
  specialize (Hax sr). rewrite forallb_forall in Hax.
  assert (Hsr : In sr (seqZ 0 6)) by (apply list_elem_of_In, elem_of_seqZ; lia).
  assert (Hsc : In sc (seqZ 0 7)) by (apply list_elem_of_In, elem_of_seqZ; lia).
  specialize (Hax Hsr sc Hsc). rewrite Hin in Hax. simpl in Hax.
  by apply bool_decide_eq_true in Hax.
Qed.

Lemma elem_of_0123 (i : Z) : i ∈ [0; 1; 2; 3] ↔ 0 <= i <= 3.
Proof. rewrite !elem_of_cons, elem_of_nil. lia. Qed.

Lemma line_in_board_spec sr sc dr dc :
  line_in_board sr sc dr dc = true ↔
  ∀ i, 0 <= i <= 3 → in_board (sr + i * dr) (sc + i * dc) = true.
Proof.
  unfold line_in_board. rewrite forallb_forall. split.
  - intros H i Hi. by apply H, list_elem_of_In, elem_of_0123.
  - intros H i Hi. by apply H, elem_of_0123, list_elem_of_In.
Qed.

Lemma elem_of_line sr sc dr dc r c :
  (r, c) ∈ line sr sc dr dc ↔
  ∃ i, 0 <= i <= 3 ∧ r = Z.to_nat (sr + i * dr) ∧ c = Z.to_nat (sc + i * dc).
Proof.
  unfold line. rewrite list_elem_of_fmap. split.
  - intros (i & [= -> ->] & Hi). exists i. by rewrite <- elem_of_0123.
  - intros (i & Hi & -> & ->). exists i. by rewrite elem_of_0123.
Qed.

(** The local check agrees with the scan of the catalogue. *)
Lemma is_win_window b player r c :
  _is_win b player r c = true ↔ window_through b player r c.
Proof.
  unfold _is_win, window_through. rewrite existsb_exists. split.
  - intros ([dr dc] & Hax & Hrun).
    apply Z.leb_le, axis_run_iff in Hrun as (j & Hj & Hown).
    set (sr := Z.of_nat r - j * dr). set (sc := Z.of_nat c - j * dc).
    assert (Hcell : ∀ i, 0 <= i <= 3 →
      owned b player (sr + i * dr) (sc + i * dc) = true).
    { intros i Hi. specialize (Hown i Hi). unfold sr, sc.
      replace (Z.of_nat r - j * dr + i * dr)
        with (Z.of_nat r + (i - j) * dr) by ring.
      by replace (Z.of_nat c - j * dc + i * dc)
        with (Z.of_nat c + (i - j) * dc) by ring. }
    exists (line sr sc dr dc). split; [|split].
    + apply lines_are_windows; [by apply list_elem_of_In |].
      apply line_in_board_spec. intros i Hi.
      apply Hcell, owned_spec in Hi as [Hi _]. by apply in_board_spec.
    + apply elem_of_line. exists j. split; [done |]. unfold sr, sc.
      split; [replace (Z.of_nat r - j * dr + j * dr) with (Z.of_nat r) by ring
             |replace (Z.of_nat c - j * dc + j * dc) with (Z.of_nat c) by ring];
        by rewrite Nat2Z.id.
    + intros r' c' (i & Hi & -> & ->)%elem_of_line.
      by apply Hcell, owned_spec in Hi as [_ Hi].
  - intros (w & Hw & Hin & Hall).
    apply windows_are_lines in Hw as (sr & sc & dr & dc & Hax & Hlb & ->).
    exists (dr, dc). split; [by apply list_elem_of_In |].
    apply Z.leb_le, axis_run_iff.
    rewrite line_in_board_spec in Hlb.
    apply elem_of_line in Hin as (j & Hj & Hr & Hc).
    pose proof (Hlb j Hj) as Hbj. apply in_board_spec in Hbj.
    assert (Hr' : Z.of_nat r = sr + j * dr) by lia.
    assert (Hc' : Z.of_nat c = sc + j * dc) by lia.
    exists j. split; [done |]. intros i Hi.
    rewrite Hr', Hc'.
    replace (sr + j * dr + (i - j) * dr) with (sr + i * dr) by ring.
    replace (sc + j * dc + (i - j) * dc) with (sc + i * dc) by ring.
    apply owned_spec. split; [by apply in_board_spec, Hlb |].
    apply Hall, elem_of_line. by exists i.
Qed.

(** C7: for a cell (r, c) of the board held by [player], the local check
    centred on (r, c) succeeds exactly when some window of the catalogue
    (horizontal, vertical or diagonal) contains (r, c) and is filled with
    [player]'s pieces. *)
Theorem is_win_agrees_with_scan b player r c :
  wf_board b → (r < ROWS)%nat → (c < COLS)%nat → cell b r c = player →
  _is_win b player r c = true ↔
  ∃ w, w ∈ WINDOWS ∧ (r, c) ∈ w ∧ ∀ r' c', (r', c') ∈ w → cell b r' c' = player.
Proof. intros _ _ _ _. apply is_win_window. Qed.

(** ** Immediate wins *)

Lemma wf_board_rows b r :
  wf_board b → (r < ROWS)%nat → ∃ row, b !! r = Some row ∧ length row = COLS.
Proof.
  unfold wf_board. intros Hwf Hr.
  assert (Hl : (length <$> b) !! r = Some COLS).
  { rewrite Hwf. by apply lookup_replicate_2. }
  rewrite list_lookup_fmap in Hl.
  destruct (b !! r) as [row|]; [|done]. exists row. by injection Hl as ->.
Qed.

Lemma cell_set_cell b r c v r' c' :
  wf_board b → (r < ROWS)%nat → (c < COLS)%nat →
  cell (set_cell b r c v) r' c' =
  if decide ((r', c') = (r, c)) then v else cell b r' c'.
Proof.
  intros Hwf Hr Hc. unfold cell, set_cell.
  destruct (wf_board_rows b r Hwf Hr) as (row & Hrow & Hlen).
  destruct (decide (r' = r)) as [->|Hne].
  - rewrite list_lookup_alter_eq, Hrow. simpl.
    destruct (decide (c' = c)) as [->|Hnc].
    + rewrite decide_True by done.
      by rewrite list_lookup_insert_eq by lia.
    + rewrite decide_False by congruence.
      by rewrite list_lookup_insert_ne.
  - rewrite list_lookup_alter_ne by done.
    by rewrite decide_False by congruence.
Qed.

Lemma window_cell_range w r c :
  w ∈ WINDOWS → (r, c) ∈ w → (r < ROWS)%nat ∧ (c < COLS)%nat.
Proof.
  intros (sr & sc & dr & dc & _ & Hlb & ->)%windows_are_lines
         (i & Hi & -> & ->)%elem_of_line.
  rewrite line_in_board_spec in Hlb.
  specialize (Hlb i Hi). apply in_board_spec in Hlb.
  unfold ROWS, COLS. lia.
Qed.


(** ** Size of the heuristic *)

Lemma count_eq_le v l : count_eq v l <= Z.of_nat (length l).
Proof. unfold count_eq. pose proof (length_filter (λ x, x = v) l). lia. Qed.

Lemma window_value_bound w2 s o e :
  0 <= w2 <= 1200 → -1200 <= window_value w2 s o e <= 1200.
Proof.
  intros Hw. unfold window_value.
  repeat match goal with
  | |- context [if ?c then _ else _] => destruct c
  end; lia.
Qed.

Lemma windows_sum_bound b ws :
  let total := foldr (λ w acc,
      window_value 35 (count_eq (-1) (window_cells b w))
        (count_eq 1 (window_cells b w)) (count_eq 0 (window_cells b w)) + acc)
      0 ws in
  - 1200 * Z.of_nat (length ws) <= total <= 1200 * Z.of_nat (length ws).
Proof.
  induction ws as [|w ws IH]; simpl; [lia |].
  pose proof (window_value_bound 35 (count_eq (-1) (window_cells b w))
    (count_eq 1 (window_cells b w)) (count_eq 0 (window_cells b w))
    ltac:(lia)).
  simpl in IH. lia.
Qed.

(** No heuristic value reaches the win score. *)
Lemma evaluate_bound b :
  length b = ROWS → - WIN_SCORE < _evaluate b < WIN_SCORE.
Proof.
  intros Hlen. unfold _evaluate. rewrite fold_window_step.
  pose proof (windows_sum_bound b WINDOWS) as Hs. cbv zeta in Hs.
  change (length WINDOWS) with 69%nat in Hs.
  pose proof (count_eq_le (-1) (center_array b)) as H1.
  pose proof (count_eq_le 1 (center_array b)) as H2.
  pose proof (count_eq_nonneg (-1) (center_array b)).
  pose proof (count_eq_nonneg 1 (center_array b)).
  assert (Hc : length (center_array b) = 6%nat).
  { unfold center_array. by rewrite length_fmap. }
  rewrite Hc in H1, H2. unfold WIN_SCORE. lia.
Qed.

(** ** The depth-1 pass *)

Lemma wf_board_length b : wf_board b → length b = ROWS.
Proof.
  unfold wf_board. intros H. apply (f_equal length) in H.
  by rewrite length_fmap, length_replicate in H.
Qed.


Lemma legal_next_open_row b col :
  legal b col → ∃ r, _next_open_row b col = Some r.
Proof.
  intros [_ Htop]. unfold _next_open_row.
  destruct (find _ _) as [r|] eqn:Hf; [by exists r |].
  pose proof (find_none _ _ Hf 0%nat) as Hn. cbv beta in Hn.
  rewrite bool_decide_eq_true_2 in Hn by done.
  discriminate Hn. apply list_elem_of_In, elem_of_reverse, elem_of_seq.
  unfold ROWS. lia.
Qed.



Lemma smax_fin_not_posinf a v : a ≠ PosInf → smax a (Fin v) ≠ PosInf.
Proof. unfold smax. by destruct (slt a (Fin v)). Qed.

Lemma sle_posinf a : a ≠ PosInf → sle PosInf a = false.
Proof. by destruct a. Qed.

Section DepthOne.

Variable zobrist : nat → nat → nat → Z.
Variable clock : nat → Z.
Variable time_limit : Z.

Lemma quiet_tick st : quiet clock time_limit st → quiet clock time_limit (tick st).
Proof. by intros (? & ? & ?). Qed.

Lemma quiet_with_board st b :
  quiet clock time_limit st → quiet clock time_limit (with_board st b).
Proof. by intros (? & ? & ?). Qed.

Lemma root_loop_cons child player beta col cols best_score best alpha st :
  root_loop clock time_limit child player beta (col :: cols)
    best_score best alpha st =
  if time_limit <=? clock (now st) - start_time st
  then (best_score, best, set_stop (tick st))
  else
    match _next_open_row (board st) col with
    | None =>
        root_loop clock time_limit child player beta cols
          best_score best alpha (tick st)
    | Some r =>
        let '(score, st3) := try_move child player alpha beta r col (tick st) in
        if sle beta (smax alpha score)
        then (if slt best_score score then score else best_score,
              if slt best_score score then Some col else best, st3)
        else
          root_loop clock time_limit child player beta cols
            (if slt best_score score then score else best_score)
            (if slt best_score score then Some col else best)
            (smax alpha score) st3
    end.
Proof. reflexivity. Qed.

End DepthOne.



(** ** Search against plain minimax *)

Lemma smax_comm a b : smax a b = smax b a.
Proof.
  unfold smax, slt. destruct a as [|x|], b as [|y|]; simpl; try done.
  destruct (Z.leb_spec y x), (Z.leb_spec x y); simpl; try done;
    f_equal; lia.
Qed.

Lemma smax_assoc a b c : smax a (smax b c) = smax (smax a b) c.
Proof.
  unfold smax, slt.
  destruct a as [|x|], b as [|y|], c as [|z|]; simpl; try done;
    repeat match goal with
    | |- context [?u <=? ?v] => destruct (Z.leb_spec u v); simpl
    end; try done; f_equal; lia.
Qed.

Lemma fold_left_smax l a : fold_left smax l a = smax a (foldr smax NegInf l).
Proof.
  revert a. induction l as [|x l IH]; intros a; simpl.
  - unfold smax, slt. by destruct a.
  - by rewrite IH, smax_assoc.
Qed.

Lemma smax_list_perm l l' :
  l ≡ₚ l' → foldr smax NegInf l = foldr smax NegInf l'.
Proof.
  intros Hp. apply (foldr_permutation eq smax NegInf); [|done].
  intros _ a1 _ a2 acc _ _ _.
  by rewrite !smax_assoc, (smax_comm a1 a2).
Qed.

Lemma smax_neginf_l a : smax NegInf a = a.
Proof. by destruct a. Qed.

Lemma minimax_succ d b player :
  _valid_moves b ≠ [] →
  minimax (S d) b player
  = foldr smax NegInf (move_score d b player <$> _valid_moves b).
Proof.
  intros Hv. cbn [minimax].
  by destruct (_valid_moves b).
Qed.

Section DepthOneValue.

Variable zobrist : nat → nat → nat → Z.
Variable clock : nat → Z.
Variable time_limit : Z.

(** In a quiet state a depth-0 node computes the depth-0 minimax value. *)
Lemma negamax_leaf_minimax player alpha beta st :
  quiet clock time_limit st →
  _negamax zobrist clock time_limit 0 player alpha beta st
  = (minimax 0 (board st) player, tick st).
Proof.
  intros (Hck & Htt & Hstop). simpl. rewrite Hck. simpl.
  unfold tt_probe. rewrite Htt, lookup_empty.
  by destruct (_valid_moves (board st)).
Qed.

Lemma try_move_leaf_score player alpha beta r col st :
  quiet clock time_limit st → _next_open_row (board st) col = Some r →
  ∃ st3,
    try_move (_negamax zobrist clock time_limit 0) player alpha beta r col st
      = (move_score 0 (board st) player col, st3) ∧
    quiet clock time_limit st3 ∧ board st3 = board st.
Proof.
  intros Hq Hr. unfold try_move, move_score. rewrite Hr.
  pose proof (next_open_row_empty _ _ _ Hr) as [Hempty _].
  set (st1 := with_board st (set_cell (board st) r col player)).
  change (board st1) with (set_cell (board st) r col player).
  destruct (_is_win _ player r col).
  - eexists. split; [done |].
    split; [by do 2 apply quiet_with_board | by apply set_cell_undo].
  - rewrite negamax_leaf_minimax by by apply quiet_with_board.
    eexists. split; [done |].
    split; [by apply quiet_with_board, quiet_tick, quiet_with_board
           | by apply set_cell_undo].
Qed.

Lemma move_score_leaf_fin b player col r :
  _next_open_row b col = Some r → ∃ v, move_score 0 b player col = Fin v.
Proof.
  intros Hr. unfold move_score. rewrite Hr.
  destruct (_is_win _ _ _ _); [by eexists |].
  simpl. destruct (_valid_moves _); by eexists.
Qed.

(** At depth 1 the root loop takes the maximum of the move scores: the
    open upper bound never cuts the loop short. *)
Lemma root_loop_leaf_max player cols best_score best alpha st :
  quiet clock time_limit st →
  (∀ c, c ∈ cols → legal (board st) c) → alpha ≠ PosInf →
  (root_loop clock time_limit (_negamax zobrist clock time_limit 0) player
     PosInf cols best_score best alpha st).1.1
  = fold_left smax (move_score 0 (board st) player <$> cols) best_score.
Proof.
  revert best_score best alpha st.
  induction cols as [|col cols IH]; intros best_score best alpha st Hq Hleg Ha;
    [done |].
  rewrite root_loop_cons, (proj1 Hq).
  destruct (legal_next_open_row (board st) col) as [r Hr];
    [apply Hleg, list_elem_of_here |].
  rewrite Hr.
  destruct (try_move_leaf_score player alpha PosInf r col (tick st))
    as (st3 & Htm & Hq3 & Hb3); [by apply quiet_tick | done |].
  rewrite Htm. cbv beta iota zeta. simpl in Hb3.
  destruct (move_score_leaf_fin (board st) player col r Hr) as [v Hv].
  simpl board. rewrite Hv.
  rewrite sle_posinf by by apply smax_fin_not_posinf.
  rewrite IH; [| done | | by apply smax_fin_not_posinf].
  - rewrite Hb3, fmap_cons. simpl. by rewrite Hv.
  - intros c Hc. rewrite Hb3. by apply Hleg, list_elem_of_further.
Qed.

(** Where the table plays no part the search is exact: a depth-1 root
    pass on a board with a legal column returns the depth-1 minimax
    value, whatever the table of hash constants. *)
Lemma negamax_root_depth_one b player st :
  quiet clock time_limit st → board st = b → _valid_moves b ≠ [] →
  (_negamax_root zobrist clock time_limit 1 player NegInf PosInf st).1.1
  = minimax 1 b player.
Proof.
  intros Hq <- Hv. unfold _negamax_root. change (1 - 1)%nat with 0%nat.
  rewrite root_loop_leaf_max; [| done | | done].
  2:{ intros c Hc. by apply valid_moves_legal, ordered_moves_valid. }
  rewrite fold_left_smax, smax_neginf_l, minimax_succ by done.
  apply smax_list_perm, fmap_Permutation.
  unfold _ordered_moves, _valid_moves. by rewrite move_order_perm.
Qed.

End DepthOneValue.

(** C1 (the code departs from it): on [transposition_board], -1 to move,
    depth 4, empty table, budget never running out, the search with the
    full window returns -2482, from the root and from an interior call
    alike, where plain minimax gives -2651. *)
Theorem negamax_root_differs_from_minimax :
  (_negamax_root sample_zobrist frozen_clock 1 4 (-1) NegInf PosInf
     (init_state frozen_clock transposition_board)).1.1 = Fin (-2482) ∧
  (_negamax sample_zobrist frozen_clock 1 4 (-1) NegInf PosInf
     (init_state frozen_clock transposition_board)).1 = Fin (-2482) ∧
  minimax 4 transposition_board (-1) = Fin (-2651).
Proof. by vm_compute. Qed.

Lemma is_win_agrees_with_scan_witness :
  _is_win pair_board 1 5 0 = true ↔
  ∃ w, w ∈ WINDOWS ∧ (5%nat, 0%nat) ∈ w ∧
       ∀ r' c', (r', c') ∈ w → cell pair_board r' c' = 1.
Proof.
  apply is_win_agrees_with_scan; [reflexivity | unfold ROWS; lia
    | unfold COLS; lia | reflexivity].
Defined.

(** * Further properties of the engine *)

(** ** Open rows and candidate columns *)

Lemma find_first_spec {A} (f : A → bool) (l : list A) :
  match find f l with
  | Some x => ∃ l1 l2, l = l1 ++ x :: l2 ∧ f x = true ∧ ∀ y, y ∈ l1 → f y = false
  | None => ∀ y, y ∈ l → f y = false
  end.
Proof.
  induction l as [|a l IH]; simpl.
  - intros y Hy. by apply elem_of_nil in Hy.
  - destruct (f a) eqn:Hfa.
    + exists [], l. split; [done |]. split; [done |].
      intros y Hy. by apply elem_of_nil in Hy.
    + destruct (find f l) as [x|].
      * destruct IH as (l1 & l2 & -> & Hx & Hl1).
        exists (a :: l1), l2. split; [done |]. split; [done |].
        intros y [->|Hy]%elem_of_cons; [done | by apply Hl1].
      * intros y [->|Hy]%elem_of_cons; [done | by apply IH].
Qed.

(** X1: the row returned by [_next_open_row] is on the board, its cell in
    the column is empty, and every row below it (larger index) holds a
    piece: it is the lowest empty cell of the column. *)
Theorem next_open_row_lowest b col r :
  _next_open_row b col = Some r →
  (r < ROWS)%nat ∧ cell b r col = 0 ∧
  ∀ r', (r < r' < ROWS)%nat → cell b r' col ≠ 0.
Proof.
  intros Hr. destruct (next_open_row_empty _ _ _ Hr) as [Hc Hlt].
  split; [done |]. split; [done |].
  unfold _next_open_row in Hr.
  pose proof (find_first_spec (λ r, bool_decide (cell b r col = 0))
                (reverse (seq 0 ROWS))) as Hf.
  rewrite Hr in Hf. destruct Hf as (l1 & l2 & Hsplit & _ & Hbefore).
  intros r' Hr'.
  assert (Hin : r' ∈ l1).
  { assert (Hall : r' ∈ reverse (seq 0 ROWS)).
    { apply elem_of_reverse, elem_of_seq. lia. }
    rewrite Hsplit in Hall.
    apply elem_of_app in Hall as [Hin|Hin]; [done |].
    exfalso.
    assert (Hsorted : seq 0 ROWS = reverse l2 ++ r :: reverse l1).
    { rewrite <- (reverse_involutive (seq 0 ROWS)), Hsplit.
      by rewrite reverse_app, reverse_cons, <- app_assoc. }
    apply elem_of_cons in Hin as [->|Hin]; [lia |].
    apply elem_of_reverse, list_elem_of_lookup in Hin as [i Hi].
    pose proof (lookup_lt_Some _ _ _ Hi) as Hil.
    assert (H1 : seq 0 ROWS !! i = Some r').
    { rewrite Hsorted. by rewrite lookup_app_l. }
    assert (H2 : seq 0 ROWS !! length (reverse l2) = Some r).
    { rewrite Hsorted. by rewrite list_lookup_middle. }
    apply lookup_seq in H1 as [-> _]. apply lookup_seq in H2 as [-> _].
    lia. }
  apply Hbefore in Hin. by apply bool_decide_eq_false in Hin.
Qed.

Lemma next_open_row_lowest_witness :
  (5 < ROWS)%nat ∧ cell empty_board 5 3 = 0 ∧
  ∀ r', (5 < r' < ROWS)%nat → cell empty_board r' 3 ≠ 0.
Proof. apply next_open_row_lowest. reflexivity. Defined.

(** X2: [_next_open_row] answers [None] exactly when no cell of the
    column is empty. *)
Theorem next_open_row_none b col :
  _next_open_row b col = None ↔ ∀ r, (r < ROWS)%nat → cell b r col ≠ 0.
Proof.
  unfold _next_open_row.
  pose proof (find_first_spec (λ r, bool_decide (cell b r col = 0))
                (reverse (seq 0 ROWS))) as Hf.
  split.
  - intros Hn r Hr. rewrite Hn in Hf.
    assert (Hin : r ∈ reverse (seq 0 ROWS)).
    { apply elem_of_reverse, elem_of_seq. lia. }
    apply Hf in Hin. by apply bool_decide_eq_false in Hin.
  - intros Hall. destruct (find _ _) as [r|] eqn:Hr; [|done].
    apply next_open_row_empty in Hr as [Hc Hlt]. by apply Hall in Hc.
Qed.

(** X3: [_ordered_moves] offers the same columns as [_valid_moves], each
    once, in the order of [MOVE_ORDER]. *)
Theorem ordered_moves_same_columns b :
  _ordered_moves b ≡ₚ _valid_moves b ∧
  NoDup (_ordered_moves b) ∧
  _ordered_moves b `sublist_of` MOVE_ORDER ∧
  ∀ c, c ∈ _ordered_moves b ↔ (c < COLS)%nat ∧ cell b 0 c = 0.
Proof.
  assert (Hp : _ordered_moves b ≡ₚ _valid_moves b).
  { unfold _ordered_moves, _valid_moves. by rewrite move_order_perm. }
  split; [done |]. split; [|split].
  - rewrite Hp. apply NoDup_filter, NoDup_seq.
  - apply sublist_filter.
  - intros c. rewrite Hp. apply valid_moves_legal.
Qed.

(** ** The table lookup *)

Lemma sle_smin_l a b : sle (smin a b) a = true.
Proof.
  unfold smin. destruct (slt b a) eqn:E; [by apply slt_sle | apply sle_refl].
Qed.

(** X4: the lookup at the head of a node only ever narrows the window.
    An early return hands back the score of an entry stored under the
    key at a depth no smaller than the node's; otherwise the search goes
    on with alpha raised or beta lowered, and with the window unchanged
    when the key is missing or the entry is too shallow. *)
Theorem tt_probe_narrows (t : gmap Z TTEntry) key depth alpha beta :
  match tt_probe t key depth alpha beta with
  | Hit s =>
      ∃ e, t !! key = Some e ∧ (depth <= e_depth e)%nat ∧ s = e_score e
  | Miss a' b' =>
      sle alpha a' = true ∧ sle b' beta = true ∧
      ((t !! key = None ∨ ∃ e, t !! key = Some e ∧ (e_depth e < depth)%nat) →
       a' = alpha ∧ b' = beta)
  end.
Proof.
  unfold tt_probe. destruct (t !! key) as [e|] eqn:He.
  2:{ by rewrite !sle_refl. }
  destruct (Nat.leb_spec depth (e_depth e)) as [Hd|Hd].
  2:{ by rewrite !sle_refl. }
  destruct (e_flag e =? 0); [by exists e |].
  destruct (sle _ _) eqn:Hcut; [by exists e |].
  split; [|split].
  - destruct (e_flag e <? 0); [apply sle_smax_l | apply sle_refl].
  - destruct (e_flag e <? 0); [apply sle_refl | apply sle_smin_l].
  - intros [?|(e' & [= <-] & Hlt)]; [done | lia].
Qed.

(** ** The clock, the stop flag and the table during a search *)

Section Follows.

Variable zobrist : nat → nat → nat → Z.
Variable clock : nat → Z.
Variable time_limit : Z.

Local Abbreviation follows' := (follows clock time_limit).

Lemma follows_refl st : follows' st st.
Proof.
  split; [done |]. split; [done |]. split; [done |].
  split; [by left | intros [?|(k & ? & _)]; [done | lia]].
Qed.

Lemma follows_trans st1 st2 st3 :
  follows' st1 st2 → follows' st2 st3 → follows' st1 st3.
Proof.
  intros (Hs1 & Hn1 & Hd1 & Hst1) (Hs2 & Hn2 & Hd2 & Hst2).
  split; [congruence |]. split; [lia |].
  split; [by trans (dom (tt st2)) |].
  rewrite Hs1 in Hst2. split.
  - intros H3. apply Hst2 in H3 as [H2|(k & Hk & Hlim)].
    + apply Hst1 in H2 as [H1|(k & Hk & Hlim)]; [by left |].
      right. exists k. split; [lia | done].
    + right. exists k. split; [lia | done].
  - intros [H1|(k & Hk & Hlim)]; apply Hst2.
    + left. apply Hst1. by left.
    + destruct (decide (k < now st2)%nat).
      * left. apply Hst1. right. exists k. split; [lia | done].
      * right. exists k. split; [lia | done].
Qed.

Lemma follows_with_board st b : follows' st (with_board st b).
Proof.
  split; [done |]. split; [done |]. split; [done |].
  simpl. split; [by left | intros [?|(k & ? & _)]; [done | lia]].
Qed.

Lemma follows_insert st key e :
  follows' st (with_tt st (<[key := e]> (tt st))).
Proof.
  split; [done |]. split; [done |]. split; [simpl; set_solver |].
  simpl. split; [by left | intros [?|(k & ? & _)]; [done | lia]].
Qed.

(** A reading below the limit. *)
Lemma follows_tick st :
  (time_limit <=? clock (now st) - start_time st) = false →
  follows' st (tick st).
Proof.
  intros Hup%Z.leb_gt.
  split; [done |]. split; [simpl; lia |]. split; [done |].
  simpl. split; [by left |].
  intros [?|(k & Hk & Hlim)]; [done |].
  assert (k = now st) as -> by lia. lia.
Qed.

(** A reading at or past the limit, after which the flag is raised. *)
Lemma follows_abort st :
  (time_limit <=? clock (now st) - start_time st) = true →
  follows' st (set_stop (tick st)).
Proof.
  intros Hup%Z.leb_le.
  split; [done |]. split; [simpl; lia |]. split; [done |].
  simpl. split; [|done]. intros _. right. exists (now st). split; [lia | done].
Qed.

Lemma try_move_follows child player alpha beta r col st :
  child_follows clock time_limit child →
  follows' st (try_move child player alpha beta r col st).2.
Proof.
  intros Hc. unfold try_move.
  set (st1 := with_board st _).
  destruct (_is_win (board st1) player r col).
  { eapply follows_trans; apply follows_with_board. }
  specialize (Hc (- player) (sneg beta) (sneg alpha) st1).
  destruct (child _ _ _ st1) as [v s]. simpl in *.
  eapply follows_trans; [apply (follows_with_board st) | ].
  eapply follows_trans; [exact Hc | apply follows_with_board].
Qed.

Lemma search_loop_follows child player beta cols value best alpha st :
  child_follows clock time_limit child →
  follows' st (search_loop child player beta cols value best alpha st).2.
Proof.
  intros Hc. revert value best alpha st.
  induction cols as [|col cols IH]; intros value best alpha st; simpl;
    [apply follows_refl |].
  destruct (_next_open_row (board st) col) as [r|]; [|apply IH].
  pose proof (try_move_follows child player alpha beta r col st Hc) as Hm.
  destruct (try_move _ _ _ _ _ _ _) as [score st3]. simpl in Hm.
  destruct (sle beta _); [done |].
  eapply follows_trans; [exact Hm | apply IH].
Qed.

Lemma negamax_follows depth player alpha beta st :
  follows' st (_negamax zobrist clock time_limit depth player alpha beta st).2.
Proof.
  revert player alpha beta st.
  induction depth as [|d IH]; intros player alpha beta st; simpl.
  - destruct (time_limit <=? _) eqn:Hup; [by apply follows_abort |].
    apply follows_tick in Hup.
    destruct (tt_probe _ _ _ _ _); [done |].
    by destruct (_valid_moves _).
  - destruct (time_limit <=? _) eqn:Hup; [by apply follows_abort |].
    apply follows_tick in Hup.
    destruct (tt_probe _ _ _ _ _) as [|a' b']; [done |].
    destruct (_valid_moves _) eqn:Hv; [done |]. rewrite <- Hv.
    pose proof (search_loop_follows (_negamax zobrist clock time_limit d)
      player b'
      (_order_with_tt_first (tt (tick st)) (_valid_moves (board (tick st)))
         (_hash zobrist (board (tick st)))) NegInf None a' (tick st)) as H.
    destruct (search_loop _ _ _ _ _ _ _ _) as [[[v bm] a''] st'].
    simpl in *.
    eapply follows_trans; [exact Hup |].
    eapply follows_trans; [apply H; intros ????; apply IH |].
    apply follows_insert.
Qed.

Lemma root_loop_follows child player beta cols best_score best alpha st :
  child_follows clock time_limit child →
  follows' st
    (root_loop clock time_limit child player beta cols best_score best alpha st).2.
Proof.
  intros Hc. revert best_score best alpha st.
  induction cols as [|col cols IH]; intros best_score best alpha st; simpl;
    [apply follows_refl |].
  destruct (time_limit <=? _) eqn:Hup; [by apply follows_abort |].
  apply follows_tick in Hup.
  destruct (_next_open_row (board st) col) as [r|].
  2:{ eapply follows_trans; [exact Hup | apply IH]. }
  pose proof (try_move_follows child player alpha beta r col (tick st) Hc) as Hm.
  destruct (try_move _ _ _ _ _ _ _) as [score st3]. simpl in Hm.
  eapply follows_trans; [exact Hup |].
  destruct (sle beta _); [done |].
  eapply follows_trans; [exact Hm | apply IH].
Qed.

Lemma negamax_root_follows depth player alpha beta st :
  follows' st
    (_negamax_root zobrist clock time_limit depth player alpha beta st).2.
Proof.
  unfold _negamax_root. apply root_loop_follows.
  intros ????. apply negamax_follows.
Qed.

End Follows.

(** X6: after a search call, interior or root, the stop flag is up
    exactly when it was up before or one of the clock readings the call
    took was at or past the limit; the flag is never lowered. *)
Theorem negamax_stop_flag zobrist clock time_limit depth player alpha beta st :
  (let st' := (_negamax zobrist clock time_limit depth player alpha beta st).2 in
   stop st' = true ↔
   stop st = true ∨
   ∃ k, (now st <= k < now st')%nat ∧ time_limit <= clock k - start_time st) ∧
  (let st' :=
     (_negamax_root zobrist clock time_limit depth player alpha beta st).2 in
   stop st' = true ↔
   stop st = true ∨
   ∃ k, (now st <= k < now st')%nat ∧ time_limit <= clock k - start_time st).
Proof.
  split; cbv zeta.
  - by destruct (negamax_follows zobrist clock time_limit
                   depth player alpha beta st) as (_ & _ & _ & ?).
  - by destruct (negamax_root_follows zobrist clock time_limit
                   depth player alpha beta st) as (_ & _ & _ & ?).
Qed.

(** X7: a search call never removes a key from the table (entries are
    only added or overwritten) and never touches the start time. *)
Theorem negamax_keeps_keys zobrist clock time_limit depth player alpha beta st key :
  is_Some (tt st !! key) →
  let st1 := (_negamax zobrist clock time_limit depth player alpha beta st).2 in
  let st2 :=
    (_negamax_root zobrist clock time_limit depth player alpha beta st).2 in
  is_Some (tt st1 !! key) ∧ is_Some (tt st2 !! key) ∧
  start_time st1 = start_time st ∧ start_time st2 = start_time st.
Proof.
  intros Hk%elem_of_dom. cbv zeta.
  destruct (negamax_follows zobrist clock time_limit
              depth player alpha beta st) as (Hs1 & _ & Hd1 & _).
  destruct (negamax_root_follows zobrist clock time_limit
              depth player alpha beta st) as (Hs2 & _ & Hd2 & _).
  rewrite <- !elem_of_dom. set_solver.
Qed.

Lemma negamax_keeps_keys_witness :
  let st := (_negamax sample_zobrist frozen_clock 1 1 (-1) NegInf PosInf
               (init_state frozen_clock empty_board)).2 in
  let st1 := (_negamax sample_zobrist frozen_clock 1 2 1 NegInf PosInf st).2 in
  let st2 :=
    (_negamax_root sample_zobrist frozen_clock 1 2 1 NegInf PosInf st).2 in
  is_Some (tt st1 !! 0) ∧ is_Some (tt st2 !! 0) ∧
  start_time st1 = start_time st ∧ start_time st2 = start_time st.
Proof.
  apply (negamax_keeps_keys sample_zobrist frozen_clock 1 2 1 NegInf PosInf
    (_negamax sample_zobrist frozen_clock 1 1 (-1) NegInf PosInf
       (init_state frozen_clock empty_board)).2 0).
  vm_compute. eexists. reflexivity.
Defined.

(** ** Fallbacks of [best_move] *)

Lemma filter_seq_head (P : nat → Prop) `{!∀ x, Decision (P x)} a n c0 cs :
  filter P (seq a n) = c0 :: cs →
  P c0 ∧ (a <= c0 < a + n)%nat ∧ ∀ c, (a <= c < a + n)%nat → P c → (c0 <= c)%nat.
Proof.
  revert a. induction n as [|n IH]; intros a; [done |].
  simpl seq. rewrite filter_cons. destruct (decide (P a)) as [Hp|Hp].
  - intros [= <- _]. split; [done |]. split; lia.
  - intros (Hp0 & Hr & Hmin)%IH. split; [done |]. split; [lia |].
    intros c Hc Hpc. destruct (decide (c = a)) as [->|]; [done |].
    apply Hmin; [lia | done].
Qed.

(** X8: when the budget is already spent at the first check, or
    [max_depth] is below 1, [best_move] does not search: it returns the
    first entry of [_valid_moves], the legal column of lowest index. *)
Theorem best_move_budget_spent zobrist clock time_limit max_depth b player :
  _valid_moves b ≠ [] →
  time_limit <= clock 1%nat - clock 0%nat ∨ max_depth <= 0 →
  let col := best_move zobrist clock time_limit max_depth b player in
  head (_valid_moves b) = Some col ∧
  ∀ c, (c < COLS)%nat → cell b 0 c = 0 → (col <= c)%nat.
Proof.
  intros Hne Hcase. cbv zeta.
  assert (Hbest : head (_valid_moves b)
                  = Some (best_move zobrist clock time_limit max_depth b player)).
  { unfold best_move, best_move_run.
    destruct (_valid_moves b) as [|c0 cs]; [done |]. simpl head. f_equal.
    destruct Hcase as [Hup|Hd].
    - destruct (Z.to_nat max_depth) as [|n]; [done |].
      simpl. apply Z.leb_le in Hup. by rewrite Hup.
    - by replace (Z.to_nat max_depth) with 0%nat by lia. }
  split; [done |].
  unfold _valid_moves in Hbest.
  destruct (filter _ _) as [|c0 cs] eqn:Hf; [done |].
  injection Hbest as <-.
  apply filter_seq_head in Hf as (_ & _ & Hmin).
  intros c Hc Hz. apply Hmin; [unfold COLS in *; lia | done].
Qed.

Lemma best_move_budget_spent_witness :
  let col := best_move sample_zobrist frozen_clock 0 12 centre_open_board 1 in
  head (_valid_moves centre_open_board) = Some col ∧
  ∀ c, (c < COLS)%nat → cell centre_open_board 0 c = 0 → (col <= c)%nat.
Proof.
  apply best_move_budget_spent; [by vm_compute | left; by vm_compute].
Defined.

(** X9: called on a board without a legal column, the root search runs
    no iteration: score -inf, no move, state untouched, no clock reading. *)
Theorem negamax_root_no_moves zobrist clock time_limit depth player alpha beta st :
  _valid_moves (board st) = [] →
  _negamax_root zobrist clock time_limit depth player alpha beta st
  = (NegInf, None, st).
Proof.
  intros Hv. unfold _negamax_root.
  assert (Ho : _ordered_moves (board st) = []).
  { apply Permutation_nil_r. rewrite <- Hv.
    unfold _ordered_moves, _valid_moves. by rewrite move_order_perm. }
  by rewrite Ho.
Qed.

Lemma negamax_root_no_moves_witness :
  _negamax_root sample_zobrist frozen_clock 1 4 1 NegInf PosInf
    (init_state frozen_clock full_board)
  = (NegInf, None, init_state frozen_clock full_board).
Proof. apply negamax_root_no_moves. reflexivity. Defined.

(** ** Heuristic, catalogue and win check *)

(** X10: on a six-row board the heuristic stays within 82836 of zero,
    far below the score of a win, so a win always outranks it. *)
Theorem evaluate_below_win b :
  wf_board b →
  -82836 <= _evaluate b <= 82836 ∧ Z.abs (_evaluate b) < WIN_SCORE.
Proof.
  intros Hwf%wf_board_length.
  assert (H : -82836 <= _evaluate b <= 82836).
  { unfold _evaluate. rewrite fold_window_step.
    pose proof (windows_sum_bound b WINDOWS) as Hs. cbv zeta in Hs.
    change (length WINDOWS) with 69%nat in Hs.
    pose proof (count_eq_le (-1) (center_array b)) as H1.
    pose proof (count_eq_le 1 (center_array b)) as H2.
    pose proof (count_eq_nonneg (-1) (center_array b)).
    pose proof (count_eq_nonneg 1 (center_array b)).
    assert (Hc : length (center_array b) = 6%nat).
    { unfold center_array. by rewrite length_fmap. }
    rewrite Hc in H1, H2. lia. }
  split; [done |]. unfold WIN_SCORE. lia.
Qed.

Lemma evaluate_below_win_witness :
  -82836 <= _evaluate transposition_board <= 82836 ∧
  Z.abs (_evaluate transposition_board) < WIN_SCORE.
Proof. apply evaluate_below_win. reflexivity. Defined.

(** X11: the catalogue [WINDOWS] holds exactly the runs of four cells
    that fit on the board along the four axes (right, down, down-right,
    up-right), 69 of them, none twice. *)
Theorem windows_catalogue w :
  (w ∈ WINDOWS ↔
   ∃ sr sc dr dc, (dr, dc) ∈ AXES ∧ line_in_board sr sc dr dc = true ∧
                  w = line sr sc dr dc) ∧
  length WINDOWS = 69%nat ∧ NoDup WINDOWS.
Proof.
  split; [split |split].
  - apply windows_are_lines.
  - intros (sr & sc & dr & dc & Hax & Hin & ->). by apply lines_are_windows.
  - reflexivity.
  - apply (bool_decide_unpack _). by vm_compute.
Qed.

(** X12: the [while] loop of [count_dir] counts between 0 and 7 cells,
    and, started on the board in one of the eight directions used, it
    has stopped by itself after seven iterations: letting it run longer
    gives the same count. *)
Theorem count_dir_terminates b player r c dr dc fuel :
  (r < ROWS)%nat → (c < COLS)%nat →
  (dr, dc) ∈ AXES ∨ (- dr, - dc) ∈ AXES → (7 <= fuel)%nat →
  0 <= count_dir b player r c dr dc <= 7 ∧
  count_dir_loop fuel b player dr dc (Z.of_nat r) (Z.of_nat c)
  = count_dir b player r c dr dc.
Proof.
  intros Hr Hc Hax Hf. unfold count_dir. split.
  - apply (count_loop_bounds b player dr dc 7).
  - assert (Hd : (dr ≠ 0 ∨ dc ≠ 0) ∧ -1 <= dr <= 1 ∧ -1 <= dc <= 1).
    { unfold AXES in Hax. rewrite !elem_of_cons, !elem_of_nil in Hax.
      destruct Hax as [Hax|Hax];
        repeat destruct Hax as [Hax|Hax]; try done;
        injection Hax as ??; lia. }
    destruct Hd as (Hnz & Hdr & Hdc).
    apply count_dir_fuel; [done.. | | done].
    apply in_board_spec. unfold ROWS, COLS in *. lia.
Qed.

Lemma count_dir_terminates_witness :
  0 <= count_dir pair_board 1 5 0 0 1 <= 7 ∧
  count_dir_loop 20 pair_board 1 0 1 (Z.of_nat 5) (Z.of_nat 0)
  = count_dir pair_board 1 5 0 0 1.
Proof.
  apply count_dir_terminates;
    [unfold ROWS; lia | unfold COLS; lia | left; apply list_elem_of_here | lia].
Defined.

(** X13: [_is_win] answers False when the cell it is centred on is off
    the board or does not hold the player's piece, whatever else is on
    the board. *)
Theorem is_win_needs_own_cell b player r c :
  cell b r c ≠ player ∨ (ROWS <= r)%nat ∨ (COLS <= c)%nat →
  _is_win b player r c = false.
Proof.
  intros Hcase. apply not_true_is_false.
  intros (w & Hw & Hin & Hall)%is_win_window.
  destruct (window_cell_range w r c Hw Hin) as [Hr Hc].
  destruct Hcase as [Hne|[?|?]]; [|lia..].
  by apply Hne, Hall.
Qed.

Lemma is_win_needs_own_cell_witness : _is_win full_board 1 0 0 = false.
Proof. apply is_win_needs_own_cell. left. vm_compute. discriminate. Defined.

(** ** What a node stores and returns *)





(** X15: where the table plays no part the search is exact: started from
    [best_move]'s initial state with a budget that never runs out, the
    depth-1 root pass on a board with a legal column returns the plain
    depth-1 minimax value, whatever the table of hash constants. *)
Theorem root_search_depth_one_exact zobrist clock time_limit b player :
  _valid_moves b ≠ [] →
  (∀ k : nat, clock k - clock 0%nat < time_limit) →
  (_negamax_root zobrist clock time_limit 1 player NegInf PosInf
     (init_state clock b)).1.1
  = minimax 1 b player.
Proof.
  intros Hv Hclock. apply negamax_root_depth_one; [|done..].
  split; [|done]. intros k. simpl. apply Z.leb_gt, Hclock.
Qed.

Lemma root_search_depth_one_exact_witness :
  (_negamax_root sample_zobrist frozen_clock 1 1 (-1) NegInf PosInf
     (init_state frozen_clock transposition_board)).1.1
  = minimax 1 transposition_board (-1).
Proof.
  apply root_search_depth_one_exact; [by vm_compute | intros k; reflexivity].
Defined.

(** ** Scores stay between a loss and a win *)

Lemma fin_bounded_neg s : fin_bounded s → fin_bounded (sneg s).
Proof. intros (v & -> & Hv). exists (- v). split; [done | lia]. Qed.

Lemma fin_bounded_win : fin_bounded (Fin WIN_SCORE).
Proof. exists WIN_SCORE. split; [done |]. unfold WIN_SCORE. lia. Qed.

Lemma fin_bounded_zero : fin_bounded (Fin 0).
Proof. exists 0. split; [done |]. unfold WIN_SCORE. lia. Qed.

Lemma tt_bounded_empty : tt_bounded ∅.
Proof. intros k e Hk. by rewrite lookup_empty in Hk. Qed.

Lemma tt_bounded_insert (t : gmap Z TTEntry) key e :
  tt_bounded t → fin_bounded (e_score e) → tt_bounded (<[key := e]> t).
Proof.
  intros Ht He k e'. rewrite lookup_insert.
  case_decide; [by intros [= <-] | apply Ht].
Qed.

Lemma tt_probe_hit (t : gmap Z TTEntry) key depth alpha beta s :
  tt_probe t key depth alpha beta = Hit s →
  ∃ e, t !! key = Some e ∧ s = e_score e.
Proof.
  unfold tt_probe. destruct (t !! key) as [e|]; [|done].
  destruct (_ <=? _)%nat; [|done].
  destruct (e_flag e =? 0); [intros [= <-]; by exists e |].
  destruct (sle _ _); [intros [= <-]; by exists e | done].
Qed.

Lemma length_set_cell b r c v : length (set_cell b r c v) = length b.
Proof. unfold set_cell. apply length_alter. Qed.

Lemma order_with_tt_first_complete (t : gmap Z TTEntry) valid key c :
  c ∈ valid → c ∈ MOVE_ORDER → c ∈ _order_with_tt_first t valid key.
Proof.
  intros Hv Hm. unfold _order_with_tt_first.
  assert (Hplain : c ∈ filter (λ c, c ∈ valid) MOVE_ORDER).
  { by apply list_elem_of_filter. }
  destruct (t !! key) as [e|]; [|done].
  destruct (e_best_move e) as [m|]; [|done].
  case_bool_decide; [|done].
  destruct (decide (c = m)) as [->|Hne]; [apply list_elem_of_here |].
  apply list_elem_of_further, list_elem_of_filter. by split.
Qed.

Lemma try_move_bounded child player alpha beta r col st :
  child_bounded child → restores child →
  tt_bounded (tt st) → length (board st) = ROWS → cell (board st) r col = 0 →
  let res := try_move child player alpha beta r col st in
  fin_bounded res.1 ∧ tt_bounded (tt res.2) ∧ board res.2 = board st.
Proof.
  intros Hc Hr Ht Hl Hcell. cbv zeta.
  pose proof (try_move_board child player alpha beta r col st Hr Hcell) as Hb.
  split; [|split; [|done]]; unfold try_move;
    set (st1 := with_board st (set_cell (board st) r col player));
    (destruct (_is_win (board st1) player r col);
      [first [apply fin_bounded_win | done] |]);
    destruct (Hc (- player) (sneg beta) (sneg alpha) st1) as [Hv Ht'];
    try done; try (simpl; by rewrite length_set_cell);
    destruct (child _ _ _ st1) as [v s]; simpl in *;
    [by apply fin_bounded_neg | done].
Qed.

Lemma search_loop_bounded child player beta cols value best alpha st :
  child_bounded child → restores child →
  tt_bounded (tt st) → length (board st) = ROWS →
  fin_bounded value ∨ value = NegInf →
  let res := search_loop child player beta cols value best alpha st in
  tt_bounded (tt res.2) ∧
  (fin_bounded res.1.1.1 ∨
   value = NegInf ∧ ∀ c, c ∈ cols → _next_open_row (board st) c = None).
Proof.
  intros Hc Hr. revert value best alpha st.
  induction cols as [|col cols IH]; intros value best alpha st Ht Hl Hval; simpl.
  - split; [done |]. destruct Hval as [?|?]; [by left | right].
    split; [done |]. intros c Hin. by apply elem_of_nil in Hin.
  - destruct (_next_open_row (board st) col) as [r|] eqn:Hrow.
    + apply next_open_row_empty in Hrow as [Hcell _].
      destruct (try_move_bounded child player alpha beta r col st
                  Hc Hr Ht Hl Hcell) as (Hs & Ht3 & Hb3).
      destruct (try_move _ _ _ _ _ _ _) as [score st3]. simpl in Hs, Ht3, Hb3.
      assert (Hv' : fin_bounded (if slt value score then score else value)).
      { destruct Hval as [?| ->]; [by destruct (slt value score) |].
        destruct Hs as (v & -> & ?). by exists v. }
      destruct (sle beta _); simpl; [split; [done | by left] |].
      destruct (IH _ (if slt value score then Some col else best)
                  (smax alpha score) st3 Ht3 ltac:(by rewrite Hb3)
                  (or_introl Hv')) as [Ht' [Hres|[Hneg _]]].
      * split; [done | by left].
      * destruct Hv' as (v & Hv' & _). by rewrite Hv' in Hneg.
    + destruct (IH value best alpha st Ht Hl Hval) as [Ht' [Hres|[Hneg Hall]]].
      * split; [done | by left].
      * split; [done | right]. split; [done |].
        intros c [->|Hin]%elem_of_cons; [done | by apply Hall].
Qed.

Lemma negamax_bounded zobrist clock time_limit depth :
  child_bounded (_negamax zobrist clock time_limit depth).
Proof.
  induction depth as [|d IH]; intros player alpha beta st Ht Hl; simpl.
  - destruct (time_limit <=? _); [split; [apply fin_bounded_zero | done] |].
    simpl. destruct (tt_probe _ _ _ _ _) as [s|a' b'] eqn:Hp.
    { apply tt_probe_hit in Hp as (e & He & ->). split; [by eapply Ht | done]. }
    destruct (_valid_moves (board st));
      [split; [apply fin_bounded_zero | done] |].
    split; [|done]. simpl.
    pose proof (evaluate_bound (board st) Hl). eexists. split; [done |].
    destruct (player =? -1); lia.
  - destruct (time_limit <=? _); [split; [apply fin_bounded_zero | done] |].
    simpl. destruct (tt_probe _ _ _ _ _) as [s|a' b'] eqn:Hp.
    { apply tt_probe_hit in Hp as (e & He & ->). split; [by eapply Ht | done]. }
    destruct (_valid_moves (board st)) as [|c0 cs] eqn:Hv;
      [split; [apply fin_bounded_zero | done] |].
    set (cols := _order_with_tt_first (tt st) (c0 :: cs)
                   (_hash zobrist (board st))).
    destruct (search_loop_bounded (_negamax zobrist clock time_limit d)
                player b' cols NegInf None a' (tick st) IH
                ltac:(intros ????; apply negamax_board) Ht Hl
                (or_intror eq_refl)) as [Ht' Hres].
    destruct (search_loop _ _ _ _ _ _ _ _) as [[[v bm] a''] st'].
    simpl in Ht', Hres.
    assert (Hfin : fin_bounded v).
    { destruct Hres as [?|[_ Hnone]]; [done |]. exfalso.
      assert (Hin : c0 ∈ _valid_moves (board st)).
      { rewrite Hv. apply list_elem_of_here. }
      pose proof (proj1 (valid_moves_legal _ _) Hin) as Hleg.
      destruct (legal_next_open_row _ _ Hleg) as [r Hr].
      rewrite Hnone in Hr; [done |].
      apply order_with_tt_first_complete; [apply list_elem_of_here |].
      destruct Hleg as [Hlt _]. unfold MOVE_ORDER, COLS in *.
      rewrite !elem_of_cons. lia. }
    split; [done |]. simpl. by apply tt_bounded_insert.
Qed.

(** X16: from a table whose scores are numbers between a loss and a win
    (the empty table, for one) and a 6x7 board, every [_negamax] call
    returns such a number, never an infinity, and leaves such a table. *)
Theorem negamax_value_bounded zobrist clock time_limit depth player alpha beta st :
  wf_board (board st) → tt_bounded (tt st) →
  let res := _negamax zobrist clock time_limit depth player alpha beta st in
  (∃ v, res.1 = Fin v ∧ - WIN_SCORE <= v <= WIN_SCORE) ∧
  tt_bounded (tt res.2).
Proof.
  intros Hwf%wf_board_length Ht. by apply negamax_bounded.
Qed.

Lemma negamax_value_bounded_witness :
  let res := _negamax sample_zobrist frozen_clock 1 4 (-1) NegInf PosInf
               (init_state frozen_clock transposition_board) in
  (∃ v, res.1 = Fin v ∧ - WIN_SCORE <= v <= WIN_SCORE) ∧
  tt_bounded (tt res.2).
Proof.
  apply negamax_value_bounded; [reflexivity | apply tt_bounded_empty].
Defined.

(** ** The position hash *)

Lemma fold_left_lxor l h : fold_left Z.lxor l h = Z.lxor h (xors l).
Proof.
  unfold xors. revert h. induction l as [|a l IH]; intros h; simpl.
  - by rewrite Z.lxor_0_r.
  - rewrite IH, (IH (Z.lxor 0 a)), Z.lxor_0_l. by rewrite Z.lxor_assoc.
Qed.

Lemma xors_cons a l : xors (a :: l) = Z.lxor a (xors l).
Proof. unfold xors at 1. simpl. by rewrite fold_left_lxor, Z.lxor_0_l. Qed.

(** The hash is the exclusive or of the keys of all cells. *)
Lemma hash_xors zobrist b :
  _hash zobrist b =
  xors ((λ r, xors ((λ c, piece_key zobrist r c (cell b r c)) <$> seq 0 COLS))
          <$> seq 0 ROWS).
Proof.
  unfold _hash.
  assert (Hrow : ∀ r cols h,
    fold_left (λ h c,
      let v := cell b r c in
      if v =? 1 then Z.lxor h (zobrist r c 0%nat)
      else if v =? -1 then Z.lxor h (zobrist r c 1%nat)
      else h) cols h
    = Z.lxor h (xors ((λ c, piece_key zobrist r c (cell b r c)) <$> cols))).
  { intros r cols. induction cols as [|c cols IH]; intros h.
    - simpl. by rewrite Z.lxor_0_r.
    - rewrite fmap_cons, xors_cons. cbn [fold_left]. rewrite IH.
      unfold piece_key. cbv zeta.
      destruct (cell b r c =? 1); [by rewrite Z.lxor_assoc |].
      destruct (cell b r c =? -1); [by rewrite Z.lxor_assoc |].
      by rewrite Z.lxor_0_l. }
  assert (Hrows : ∀ rows h,
    fold_left (λ h r,
      fold_left (λ h c,
        let v := cell b r c in
        if v =? 1 then Z.lxor h (zobrist r c 0%nat)
        else if v =? -1 then Z.lxor h (zobrist r c 1%nat)
        else h) (seq 0 COLS) h) rows h
    = Z.lxor h (xors ((λ r,
        xors ((λ c, piece_key zobrist r c (cell b r c)) <$> seq 0 COLS))
          <$> rows))).
  { induction rows as [|r rows IH]; intros h.
    - simpl. by rewrite Z.lxor_0_r.
    - rewrite fmap_cons, xors_cons. cbn [fold_left].
      by rewrite Hrow, IH, Z.lxor_assoc. }
  by rewrite Hrows, Z.lxor_0_l.
Qed.

Lemma xors_update {A} `{!EqDecision A} (f g : A → Z) (l : list A) x0 y :
  NoDup l → x0 ∈ l →
  (∀ x, x ∈ l → x ≠ x0 → g x = f x) → g x0 = Z.lxor (f x0) y →
  xors (g <$> l) = Z.lxor (xors (f <$> l)) y.
Proof.
  intros Hnd Hin Hsame Hx0.
  induction l as [|a l IH]; [by apply elem_of_nil in Hin |].
  apply NoDup_cons in Hnd as [Ha Hnd].
  rewrite !fmap_cons, !xors_cons.
  destruct (decide (a = x0)) as [->|Hne].
  - rewrite Hx0.
    assert (Hext : g <$> l = f <$> l).
    { apply list_fmap_ext. intros i x Hx%list_elem_of_lookup_2.
      apply Hsame; [by apply list_elem_of_further | congruence]. }
    rewrite Hext, !Z.lxor_assoc. f_equal. apply Z.lxor_comm.
  - rewrite Hsame by (done || apply list_elem_of_here).
    rewrite IH; [by rewrite Z.lxor_assoc | done | |].
    + apply elem_of_cons in Hin as [?|?]; [congruence | done].
    + intros x Hx. apply Hsame. by apply list_elem_of_further.
Qed.

(** X17: the hash is a fingerprint of where the pieces 1 and -1 stand:
    two boards that agree, cell by cell, on which cells hold 1 and which
    hold -1 have the same hash. *)
Theorem hash_content zobrist b b' :
  (∀ r c, (r < ROWS)%nat → (c < COLS)%nat →
     (cell b r c = 1 ↔ cell b' r c = 1) ∧
     (cell b r c = -1 ↔ cell b' r c = -1)) →
  _hash zobrist b = _hash zobrist b'.
Proof.
  intros Hsame. rewrite !hash_xors. f_equal.
  apply list_fmap_ext. intros i r Hr%lookup_seq. f_equal.
  apply list_fmap_ext. intros j c Hc%lookup_seq.
  destruct (Hsame r c ltac:(lia) ltac:(lia)) as [H1 H2].
  unfold piece_key.
  destruct (Z.eqb_spec (cell b r c) 1), (Z.eqb_spec (cell b' r c) 1);
    try tauto.
  destruct (Z.eqb_spec (cell b r c) (-1)), (Z.eqb_spec (cell b' r c) (-1));
    tauto.
Qed.

Lemma hash_content_witness :
  _hash sample_zobrist (set_cell pair_board 0 6 2)
  = _hash sample_zobrist pair_board.
Proof.
  apply hash_content. intros r c _ _.
  rewrite cell_set_cell by (reflexivity || (unfold ROWS, COLS; lia)).
  case_decide as Heq; [injection Heq as -> -> | done].
  split; split; discriminate.
Defined.

(** X18: placing a piece on an empty cell of the board changes the hash
    by the exclusive or with that cell's key ([zobrist r c 0] for the
    player 1, [zobrist r c 1] for the player -1): the hash can be kept up
    to date move by move. *)
Theorem hash_place zobrist b r c v :
  wf_board b → (r < ROWS)%nat → (c < COLS)%nat → cell b r c = 0 →
  _hash zobrist (set_cell b r c v)
  = Z.lxor (_hash zobrist b) (piece_key zobrist r c v).
Proof.
  intros Hwf Hr Hc Hcell. rewrite !hash_xors.
  apply (xors_update _ _ _ r); [apply NoDup_seq | apply elem_of_seq; lia | |].
  - intros r' _ Hne. f_equal. apply list_fmap_ext. intros j c' _.
    rewrite cell_set_cell by done. by rewrite decide_False by congruence.
  - apply (xors_update _ _ _ c); [apply NoDup_seq | apply elem_of_seq; lia | |].
    + intros c' _ Hne. rewrite cell_set_cell by done.
      by rewrite decide_False by congruence.
    + rewrite cell_set_cell by done. rewrite decide_True by done.
      rewrite Hcell. unfold piece_key at 2. simpl. by rewrite Z.lxor_0_l.
Qed.

Lemma hash_place_witness :
  _hash sample_zobrist (set_cell pair_board 5 2 (-1))
  = Z.lxor (_hash sample_zobrist pair_board) (piece_key sample_zobrist 5 2 (-1)).
Proof.
  apply hash_place; [reflexivity | unfold ROWS; lia | unfold COLS; lia
    | reflexivity].
Defined.

Lemma lxor_range n a b :
  0 < n → 0 <= a < 2 ^ n → 0 <= b < 2 ^ n → 0 <= Z.lxor a b < 2 ^ n.
Proof.
  intros Hn Ha Hb.
  assert (Hnn : 0 <= Z.lxor a b) by (apply Z.lxor_nonneg; lia).
  split; [done |].
  destruct (decide (Z.lxor a b = 0)) as [->|Hz]; [lia |].
  apply Z.log2_lt_pow2; [lia |].
  pose proof (Z.log2_lxor a b ltac:(lia) ltac:(lia)) as Hl.
  assert (Hla : Z.log2 a < n).
  { destruct (decide (a = 0)) as [->|]; [simpl; lia |].
    apply Z.log2_lt_pow2; lia. }
  assert (Hlb : Z.log2 b < n).
  { destruct (decide (b = 0)) as [->|]; [simpl; lia |].
    apply Z.log2_lt_pow2; lia. }
  lia.
Qed.

Lemma xors_range l :
  Forall (λ x, 0 <= x < 2 ^ 64) l → 0 <= xors l < 2 ^ 64.
Proof.
  induction 1 as [|x l Hx _ IH]; [unfold xors; simpl; lia |].
  rewrite xors_cons. by apply lxor_range.
Qed.

Lemma Forall_fmap_all {A B} (P : B → Prop) (f : A → B) (l : list A) :
  (∀ x, P (f x)) → Forall P (f <$> l).
Proof. intros H. apply Forall_fmap, Forall_forall. intros x _. apply H. Qed.

(** X19: when every entry of the table is an unsigned 64-bit number, so
    is the hash of every board. *)
Theorem hash_range zobrist b :
  table64 zobrist → 0 <= _hash zobrist b < 2 ^ 64.
Proof.
  intros Ht. rewrite hash_xors.
  apply xors_range, Forall_fmap_all. intros r.
  apply xors_range, Forall_fmap_all. intros c.
  unfold piece_key.
  destruct (_ =? 1); [apply Ht |]. destruct (_ =? -1); [apply Ht | lia].
Qed.

Lemma sample_zobrist_table64 : table64 sample_zobrist.
Proof.
  intros r c i. unfold sample_zobrist. apply Z.mod_pos_bound. lia.
Qed.

Lemma hash_range_witness :
  0 <= _hash sample_zobrist transposition_board < 2 ^ 64.
Proof. apply hash_range. apply sample_zobrist_table64. Defined.

(** ** The public entry points *)

Lemma rows_of_lookup n data i :
  (i < n)%nat → rows_of n data !! i = Some (take COLS (drop (i * COLS) data)).
Proof.
  revert data i. induction n as [|n IH]; intros data i Hi; [lia |].
  destruct i as [|i]; [done |].
  cbn [rows_of]. rewrite lookup_cons. rewrite IH by lia.
  by rewrite drop_drop.
Qed.

Lemma rows_of_wf n data :
  (n * COLS <= length data)%nat → length <$> rows_of n data = replicate n COLS.
Proof.
  revert data. induction n as [|n IH]; intros data Hlen; [done |].
  cbn [rows_of]. rewrite fmap_cons. cbn [replicate]. f_equal.
  - rewrite length_take. unfold COLS in *. lia.
  - apply IH. rewrite length_drop. unfold COLS in *. lia.
Qed.

Lemma concat_rows_of n data : concat (rows_of n data) = take (n * COLS) data.
Proof.
  revert data. induction n as [|n IH]; intros data; [done |].
  cbn [rows_of concat]. rewrite IH. apply take_take_drop.
Qed.

Lemma rows_of_cell n data r c :
  (r < n)%nat → (c < COLS)%nat →
  cell (rows_of n data) r c = default 0 (data !! (r * COLS + c)%nat).
Proof.
  intros Hr Hc. unfold cell. rewrite rows_of_lookup by done.
  by rewrite lookup_take_lt, lookup_drop by done.
Qed.

(** X20: [reshape] accepts exactly the sequences of 42 entries and lays
    them out row by row: the result is a 6x7 board, entry 7r + c of the
    input is the cell (r, c), and flattening the board gives the input
    back. *)
Theorem reshape_spec data :
  match reshape data with
  | Some b =>
      length data = 42%nat ∧ wf_board b ∧ concat b = data ∧
      ∀ r c, (r < ROWS)%nat → (c < COLS)%nat →
             data !! (r * COLS + c)%nat = Some (cell b r c)
  | None => length data ≠ 42%nat
  end.
Proof.
  unfold reshape. change (ROWS * COLS)%nat with 42%nat.
  case_decide as Hlen; [|done].
  split; [done |]. split; [|split].
  - apply rows_of_wf. change (ROWS * COLS)%nat with 42%nat. lia.
  - rewrite concat_rows_of. apply take_ge.
    change (ROWS * COLS)%nat with 42%nat. lia.
  - intros r c Hr Hc. rewrite rows_of_cell by done.
    destruct (data !! (r * COLS + c)%nat) eqn:Hd; [done |].
    apply lookup_ge_None in Hd. unfold ROWS, COLS in *. lia.
Qed.

Lemma shape_6x7_size input data :
  entries_of input = Some data → shape_6x7 input = true →
  length data = 42%nat.
Proof.
  destruct input as [l|g]; [done |]. simpl.
  intros Hdata [Hrows Hall]%andb_true_iff.
  apply Nat.eqb_eq in Hrows. rewrite forallb_forall in Hall.
  assert (Hlen : ∀ g' : list (list Z),
    (∀ r, r ∈ g' → length r = COLS) → length (concat g') = (length g' * COLS)%nat).
  { induction g' as [|row g' IH]; intros Hg'; [done |].
    simpl. rewrite length_app, IH, Hg'; [done | apply list_elem_of_here |].
    intros r Hr. by apply Hg', list_elem_of_further. }
  assert (Hg : ∀ r, r ∈ g → length r = COLS).
  { intros r Hr%list_elem_of_In. by apply Nat.eqb_eq, Hall. }
  destruct g as [|row rows]; [done |].
  destruct (forallb _ rows) eqn:Hrect.
  - injection Hdata as <-.
    trans (length (concat (row :: rows))); [done |].
    rewrite Hlen by done. by rewrite Hrows.
  - exfalso. apply not_true_iff_false in Hrect. apply Hrect.
    apply forallb_forall. intros r Hr%list_elem_of_In. apply Nat.eqb_eq.
    rewrite (Hg row) by apply list_elem_of_here.
    by apply Hg, list_elem_of_further.
Qed.

Lemma forallb_int64 data :
  forallb int64 data = true ↔ ∀ z, z ∈ data → - 2 ^ 63 <= z < 2 ^ 63.
Proof.
  rewrite forallb_forall. unfold int64.
  split; intros H z Hz.
  - apply list_elem_of_In, H in Hz.
    apply andb_true_iff in Hz as [?%Z.leb_le ?%Z.ltb_lt]. lia.
  - apply list_elem_of_In, H in Hz.
    apply andb_true_iff. rewrite Z.leb_le, Z.ltb_lt. lia.
Qed.

Lemma array_data_spec input data :
  array_data input = Some data ↔
  entries_of input = Some data ∧ ∀ z, z ∈ data → - 2 ^ 63 <= z < 2 ^ 63.
Proof.
  unfold array_data. rewrite <- forallb_int64.
  destruct (entries_of input) as [d|]; simpl; [|by split; [|intros []]].
  destruct (forallb int64 d) eqn:Hd.
  - split; [by intros [= <-] | by intros [[= <-] _]].
  - split; [done | intros [[= <-] H]; congruence].
Qed.

(** X21: [play] and [act] give the same answer on every input, and they
    answer exactly when the input, flat or nested with rows of equal
    length, has 42 entries and each of them fits a signed 64-bit integer;
    every other input is rejected. *)
Theorem play_agrees_with_act zobrist clock time_limit max_depth input :
  play zobrist clock time_limit max_depth input
  = act zobrist clock time_limit max_depth input ∧
  (is_Some (play zobrist clock time_limit max_depth input) ↔
   ∃ data, entries_of input = Some data ∧ length data = 42%nat ∧
           ∀ z, z ∈ data → - 2 ^ 63 <= z < 2 ^ 63).
Proof.
  unfold play, act, reshape. change (ROWS * COLS)%nat with 42%nat.
  destruct (array_data input) as [data|] eqn:Hdata; simpl.
  2:{ split; [done |]. split; [by intros [? ?] |].
      intros (data & He & _ & Hr).
      assert (Hsome : array_data input = Some data) by by apply array_data_spec.
      congruence. }
  apply array_data_spec in Hdata as [He Hr].
  case_decide as Hlen; simpl.
  { split; [done |]. split; [intros _; by exists data | by eexists]. }
  destruct (shape_6x7 input) eqn:Hshape.
  { by apply (shape_6x7_size input data) in Hshape. }
  simpl. split; [done |].
  split; [by intros [? ?] | intros (d & Hd & ? & _); congruence].
Qed.

Lemma best_move_valid zobrist clock time_limit max_depth b player :
  _valid_moves b ≠ [] →
  best_move zobrist clock time_limit max_depth b player ∈ _valid_moves b.
Proof.
  intros Hne. unfold best_move, best_move_run.
  destruct (_valid_moves b) as [|c0 cs] eqn:Hv; [done |].
  rewrite <- Hv.
  apply (deepen_legal zobrist clock time_limit _ player c0
           (init_state clock b)).
  simpl. rewrite Hv. apply list_elem_of_here.
Qed.

(** X22: given an observation of 42 entries, each within the signed
    64-bit range, in which some column has an empty top cell (a 0 among
    its first seven entries), [act] and [play] return a column whose
    entry in the observation is 0: a move the caller can make. *)
Theorem act_returns_open_column zobrist clock time_limit max_depth input data :
  entries_of input = Some data → length data = 42%nat →
  (∀ z, z ∈ data → - 2 ^ 63 <= z < 2 ^ 63) →
  (∃ c, (c < COLS)%nat ∧ data !! c = Some 0) →
  ∃ col,
    act zobrist clock time_limit max_depth input = Some col ∧
    play zobrist clock time_limit max_depth input = Some col ∧
    (col < COLS)%nat ∧ data !! col = Some 0.
Proof.
  intros He Hlen Hrange (c & Hc & Hzero).
  assert (Hdata : array_data input = Some data) by by apply array_data_spec.
  unfold act, play, reshape. rewrite Hdata. simpl.
  change (ROWS * COLS)%nat with 42%nat. rewrite !decide_True by done. simpl.
  set (b := rows_of ROWS data).
  assert (Hcell : ∀ c', (c' < COLS)%nat → data !! c' = Some (cell b 0 c')).
  { intros c' Hc'. unfold b.
    rewrite rows_of_cell by (done || unfold ROWS; lia). simpl.
    destruct (data !! c') eqn:Hd; [done |].
    apply lookup_ge_None in Hd. unfold COLS in *. lia. }
  assert (Hne : _valid_moves b ≠ []).
  { intros Hnil. assert (Hin : c ∈ _valid_moves b).
    { apply valid_moves_legal. split; [done |].
      rewrite Hcell in Hzero by done. by injection Hzero. }
    rewrite Hnil in Hin. by apply elem_of_nil in Hin. }
  pose proof (best_move_valid zobrist clock time_limit max_depth b (-1) Hne)
    as [Hlt Hz]%valid_moves_legal.
  exists (best_move zobrist clock time_limit max_depth b (-1)).
  split; [done |]. split; [done |]. split; [done |].
  by rewrite (Hcell _ Hlt), Hz.
Qed.

Lemma act_returns_open_column_witness :
  ∃ col,
    act sample_zobrist frozen_clock 1 2 (Grid centre_open_board) = Some col ∧
    play sample_zobrist frozen_clock 1 2 (Grid centre_open_board) = Some col ∧
    (col < COLS)%nat ∧ concat centre_open_board !! col = Some 0.
Proof.
  apply (act_returns_open_column sample_zobrist frozen_clock 1 2
           (Grid centre_open_board) (concat centre_open_board));
    [reflexivity | reflexivity | |].
  - apply forallb_int64. reflexivity.
  - exists 3%nat. split; [unfold COLS; lia | reflexivity].
Defined.

(** ** A root pass that examines a move returns one *)

Lemma root_loop_some clock time_limit child player beta cols
    best_score m0 alpha st :
  ∃ m, (root_loop clock time_limit child player beta cols
          best_score (Some m0) alpha st).1.2 = Some m.
Proof.
  revert best_score m0 alpha st.
  induction cols as [|col cols IH]; intros best_score m0 alpha st; simpl;
    [by eexists |].
  destruct (time_limit <=? _); [by eexists |].
  destruct (_next_open_row (board st) col) as [r|]; [|apply IH].
  destruct (try_move _ _ _ _ _ _ _) as [score st3].
  destruct (sle beta _); simpl.
  - destruct (slt best_score score); by eexists.
  - destruct (slt best_score score); apply IH.
Qed.

(** X23: on a 6x7 board with a legal column, with a table of bounded
    scores and the clock below the limit at the first reading, a root
    pass of any depth returns a move, and that move is a legal column:
    [best_move] never meets [None] after a pass that was not cut short
    before its first move. *)
Theorem negamax_root_returns_move zobrist clock time_limit depth player
    alpha beta st :
  wf_board (board st) → tt_bounded (tt st) →
  _valid_moves (board st) ≠ [] →
  clock (now st) - start_time st < time_limit →
  ∃ m,
    (_negamax_root zobrist clock time_limit depth player alpha beta st).1.2
      = Some m ∧
    (m < COLS)%nat ∧ cell (board st) 0 m = 0.
Proof.
  intros Hwf Ht Hv Hclock%Z.leb_gt.
  assert (Hsome : ∃ m,
    (_negamax_root zobrist clock time_limit depth player alpha beta st).1.2
      = Some m).
  { unfold _negamax_root.
    destruct (_ordered_moves (board st)) as [|col cols] eqn:Ho.
    { exfalso. apply Hv, Permutation_nil_r. rewrite <- Ho.
      unfold _ordered_moves, _valid_moves. by rewrite move_order_perm. }
    assert (Hleg : legal (board st) col).
    { apply valid_moves_legal, ordered_moves_valid. rewrite Ho.
      apply list_elem_of_here. }
    destruct (legal_next_open_row _ _ Hleg) as [r Hr].
    cbn [root_loop]. unfold _time_up. rewrite Hclock. simpl. rewrite Hr.
    destruct (try_move_bounded (_negamax zobrist clock time_limit (depth - 1))
                player alpha beta r col (tick st)
                (negamax_bounded zobrist clock time_limit (depth - 1))
                ltac:(intros ????; apply negamax_board) Ht
                (wf_board_length _ Hwf)
                (proj1 (next_open_row_empty _ _ _ Hr)))
      as ((v & Hscore & _) & _ & _).
    destruct (try_move _ _ _ _ _ _ _) as [score st3]. simpl in Hscore.
    subst score.
    change (slt NegInf (Fin v)) with true. cbv iota.
    destruct (sle beta _); [by eexists |]. apply root_loop_some. }
  destruct Hsome as [m Hm]. exists m. split; [done |].
  unfold _negamax_root in Hm.
  apply root_loop_move in Hm as [Hin|?]; [|done].
  by apply ordered_moves_valid, valid_moves_legal in Hin.
Qed.

Lemma negamax_root_returns_move_witness :
  ∃ m,
    (_negamax_root sample_zobrist frozen_clock 1 3 (-1) NegInf PosInf
       (init_state frozen_clock double_threat_board)).1.2 = Some m ∧
    (m < COLS)%nat ∧ cell double_threat_board 0 m = 0.
Proof.
  apply (negamax_root_returns_move sample_zobrist frozen_clock 1 3 (-1)
           NegInf PosInf (init_state frozen_clock double_threat_board));
    [reflexivity | apply tt_bounded_empty | by vm_compute | reflexivity].
Defined.

(** ** Immediate wins within two plies *)






Section Shallow.

Variable zobrist : nat → nat → nat → Z.
Variable clock : nat → Z.
Variable time_limit : Z.

Local Abbreviation leaf := (_negamax zobrist clock time_limit 0).















End Shallow.



